(** * The max-in-flight limiter of agent-stack-k8s (scheduler/limiter.go)

    A shallow embedding of [MaxInFlightLimiter]: the in-flight set, the
    completions channel, the informer handlers and the [Create] call, the
    latter as a small-step machine so that its blocking points (the mutex
    and the channel receive) are visible. *)

From Stdlib Require Import ZArith Lia.
From stdpp Require Import base option gmap strings list.

#[local] Set Warnings "-clear-no-such-hyp".

Local Open Scope string_scope.
Local Open Scope Z_scope.

(** ** Kubernetes batch/v1 objects, as far as the limiter reads them *)

Definition JobConditionType := string.
Definition ConditionStatus := string.

(** Modelled from the spec: the condition vocabulary belongs to
    k8s.io/api/batch/v1, which is not part of the sources; these are the
    markers for a completed and for a failed job. *)
Definition JobComplete : JobConditionType := "Complete".
Definition JobFailed : JobConditionType := "Failed".

Definition ConditionTrue : ConditionStatus := "True".
Definition ConditionFalse : ConditionStatus := "False".
Definition ConditionUnknown : ConditionStatus := "Unknown".

Record JobCondition := mkCondition {
  CondType : JobConditionType;
  CondStatus : ConditionStatus
}.

(** batchv1.Job: [Labels] is the object's label map and [Conditions] is
    [Status.Conditions]. *)
Record BatchJob := mkBatchJob {
  Labels : gmap string string;
  Conditions : list JobCondition
}.

(** monitor.Job: the limiter reads [Uuid] only; [Spec] stands for the rest
    of the description, which is passed through untouched. *)
Record Job := mkJob {
  Uuid : string;
  Spec : string
}.

(** The body of the [for ... switch] of isFinished: one condition seen. *)
Definition finished_step (finished : bool) (cond : JobCondition) : bool :=
  if bool_decide (CondType cond = JobComplete) then true
  else if bool_decide (CondType cond = JobFailed) then true
  else finished.

Definition isFinished (job : BatchJob) : bool :=
  fold_left finished_step (Conditions job) false.

(** A condition whose type marks the job as over. *)
Definition terminal_type (c : JobCondition) : Prop :=
  CondType c = JobComplete ∨ CondType c = JobFailed.

(** Overwrites the status of every condition, keeping its type. *)
Definition with_status (f : JobCondition → ConditionStatus) (job : BatchJob) : BatchJob :=
  mkBatchJob (Labels job)
    (map (λ c, mkCondition (CondType c) (f c)) (Conditions job)).

(** ** The completions channel

    A Go channel of [struct{}] is its buffer size [dataqsiz], the number of
    buffered elements [qcount] and the goroutines parked in a send
    ([sendq]).  Receivers are parked exactly when a receive has no step, so
    they need no field of their own. *)
Record Chan := mkChan {
  dataqsiz : nat;
  qcount : nat;
  sendq : nat
}.

(** [make(chan struct{}, n)] panics for a negative [n]. *)
Definition makeChan (n : Z) : option Chan :=
  if bool_decide (n < 0) then None else Some (mkChan (Z.to_nat n) 0 0).

(** [c <- struct{}{}]: buffered when there is room, parked otherwise. *)
Definition chansend (c : Chan) : Chan :=
  if bool_decide (qcount c < dataqsiz c)%nat
  then mkChan (dataqsiz c) (S (qcount c)) (sendq c)
  else mkChan (dataqsiz c) (qcount c) (S (sendq c)).

(** [<-c]: [None] when the receiver has to wait.  A receive from a full
    buffer lets one parked sender refill it; with no buffer the element is
    handed over by a parked sender directly. *)
Definition chanrecv (c : Chan) : option Chan :=
  match qcount c, sendq c with
  | S q, S s => Some (mkChan (dataqsiz c) (S q) s)
  | S q, O => Some (mkChan (dataqsiz c) q O)
  | O, S s => Some (mkChan (dataqsiz c) O s)
  | O, O => None
  end.

(** Elements sent and not yet received. *)
Definition tokens (c : Chan) : nat := (qcount c + sendq c)%nat.

(** The shape a channel used under one mutex keeps: the buffer is within
    its size, at most one sender is parked, and only on a full buffer. *)
Definition chan_ok (c : Chan) : Prop :=
  (qcount c ≤ dataqsiz c)%nat
  ∧ (sendq c ≤ 1)%nat
  ∧ (0 < sendq c → qcount c = dataqsiz c)%nat.

(** ** The downstream scheduler (monitor.JobHandler)

    [Create(ctx, job) error] of an arbitrary implementation: a transition on
    its own state [D] that may see whether the context is done and returns
    an error of type [E] or nil ([None]). *)
Class JobHandler (D E : Type) := handler_Create : bool → Job → D → option E * D.

(** The scheduler together with the log of the jobs it was asked to create
    (most recent first); the log is how launches are counted. *)
Record Downstream (D : Type) := mkDownstream {
  sched_state : D;
  sched_calls : list Job
}.
Arguments mkDownstream {D}.
Arguments sched_state {D}.
Arguments sched_calls {D}.

Definition scheduler_Create `{JobHandler D E} (ctx_done : bool) (job : Job)
    (ds : Downstream D) : option E * Downstream D :=
  let '(err, d) := handler_Create ctx_done job (sched_state ds) in
  (err, mkDownstream d (job :: sched_calls ds)).

(** ** The limiter

    The fields of the Go struct that carry state: the scheduler, the
    limit, the in-flight set and the completions channel.  The logger
    writes debug lines only and [mu] shows as the atomicity of the steps
    below (see [mu_held]). *)

Record MaxInFlightLimiter (D : Type) := mkLimiter {
  scheduler : Downstream D;
  MaxInFlight : Z;
  inFlight : gset string;
  completions : Chan
}.
Arguments mkLimiter {D}.
Arguments scheduler {D}.
Arguments MaxInFlight {D}.
Arguments inFlight {D}.
Arguments completions {D}.

Definition NewLimiter {D} (sched : D) (maxInFlight : Z) : option (MaxInFlightLimiter D) :=
  c ← makeChan maxInFlight;
  Some (mkLimiter (mkDownstream sched []) maxInFlight ∅ c).

(** [len(l.inFlight)], a Go int. *)
Definition lenInFlight {D} (l : MaxInFlightLimiter D) : Z :=
  Z.of_nat (size (inFlight l)).

(** [l.mu] is held between two steps of the model only by a handler parked
    in the send of markComplete, which runs under [l.mu.Lock()]. *)
Definition mu_held {D} (l : MaxInFlightLimiter D) : bool :=
  bool_decide (0 < sendq (completions l))%nat.

(** [l.inFlight[uuid] = struct{}{}] *)
Definition track {D} (uuid : string) (l : MaxInFlightLimiter D) : MaxInFlightLimiter D :=
  mkLimiter (scheduler l) (MaxInFlight l) ({[uuid]} ∪ inFlight l) (completions l).

(** [delete(l.inFlight, uuid)] *)
Definition untrack {D} (uuid : string) (l : MaxInFlightLimiter D) : MaxInFlightLimiter D :=
  mkLimiter (scheduler l) (MaxInFlight l) (inFlight l ∖ {[uuid]}) (completions l).

(** [l.completions <- struct{}{}] *)
Definition signal {D} (l : MaxInFlightLimiter D) : MaxInFlightLimiter D :=
  mkLimiter (scheduler l) (MaxInFlight l) (inFlight l) (chansend (completions l)).

(** The test of line 72 on the size read at line 70. *)
Definition at_capacity {D} (l : MaxInFlightLimiter D) : bool :=
  bool_decide (MaxInFlight l > 0) && bool_decide (lenInFlight l >= MaxInFlight l).

(** [l] after a receive that left the channel as [ch]. *)
Definition received {D} (ch : Chan) (l : MaxInFlightLimiter D) : MaxInFlightLimiter D :=
  mkLimiter (scheduler l) (MaxInFlight l) (inFlight l) ch.

(** The outcome of one [Create] call run on its own: returned, parked in
    the receive, stopped at the mutex, or still running when the step
    budget of the run was used up. *)
Inductive Outcome (D E : Type) :=
| Done (err : option E) (l : MaxInFlightLimiter D)
| Waiting (l : MaxInFlightLimiter D)
| Locked (l : MaxInFlightLimiter D)
| Running (l : MaxInFlightLimiter D).
Arguments Done {D E}.
Arguments Running {D E}.
Arguments Waiting {D E}.
Arguments Locked {D E}.

Definition outcome_limiter {D E} (o : Outcome D E) : MaxInFlightLimiter D :=
  match o with
  | Done _ l | Waiting l | Locked l | Running l => l
  end.

(** Where a [Create] call stands: before the read of [len(l.inFlight)]
    (line 69), in the receive of line 74, before the select of line 77,
    before [l.mu.Lock()] of add (line 86), or returned. *)
Inductive CreatePc (E : Type) :=
| AtEntry
| AtRecv
| AtSelect
| AtAdd
| Returned (err : option E).
Arguments AtEntry {E}.
Arguments AtRecv {E}.
Arguments AtSelect {E}.
Arguments AtAdd {E}.
Arguments Returned {E}.

Record Call (E : Type) := mkCall {
  call_done : bool;
  call_job : Job;
  call_pc : CreatePc E
}.
Arguments mkCall {E}.
Arguments call_done {E}.
Arguments call_job {E}.
Arguments call_pc {E}.

Definition at_pc {E} (p : CreatePc E) (c : Call E) : Call E :=
  mkCall (call_done c) (call_job c) p.

Definition cancel {E} (c : Call E) : Call E :=
  mkCall true (call_job c) (call_pc c).

Definition is_waiting {E} (c : Call E) : bool :=
  match call_pc c with AtRecv => true | _ => false end.

Definition has_returned {E} (c : Call E) : bool :=
  match call_pc c with Returned _ => true | _ => false end.

Section Limiter.

(** [api.UUIDLabel], the label that carries the job's identifier; the api
    package is not part of the sources, so the key is a parameter. *)
Variable UUIDLabel : string.

Context {D E : Type} `{!JobHandler D E}.

Abbreviation Limiter := (MaxInFlightLimiter D).

(** [job.Labels[api.UUIDLabel]]: the empty string when the label is
    missing. *)
Definition jobUuid (job : BatchJob) : string :=
  default "" (Labels job !! UUIDLabel).

Definition add (ctx_done : bool) (job : Job) (l : Limiter) : option E * Limiter :=
  if decide (Uuid job ∈ inFlight l) then (None, l)
  else
    let '(err, ds) := scheduler_Create ctx_done job (scheduler l) in
    let l' := mkLimiter ds (MaxInFlight l) (inFlight l) (completions l) in
    match err with
    | Some e => (Some e, l')
    | None => (None, track (Uuid job) l')
    end.

Definition markComplete (job : BatchJob) (l : Limiter) : Limiter :=
  let uuid := jobUuid job in
  if decide (uuid ∈ inFlight l) then signal (untrack uuid l) else l.

Definition OnAdd (obj : BatchJob) (l : Limiter) : Limiter :=
  if negb (isFinished obj) then
    let uuid := jobUuid obj in
    if decide (uuid ∈ inFlight l) then l else track uuid l
  else l.

Definition OnUpdate (old obj : BatchJob) (l : Limiter) : Limiter :=
  let uuid := jobUuid obj in
  if isFinished obj then markComplete obj l
  else if decide (uuid ∈ inFlight l) then l else track uuid l.

Definition OnDelete (obj : BatchJob) (l : Limiter) : Limiter :=
  markComplete obj l.

(** One step of a [Create] call; [None] when the call cannot move: it
    waits for [l.mu], waits for a completion, or has returned. *)
Definition Create_step (c : Call E) (l : Limiter) : option (Call E * Limiter) :=
  match call_pc c with
  | AtEntry =>
      if mu_held l then None
      else
        if at_capacity l
        then Some (at_pc AtRecv c, l)
        else Some (at_pc AtSelect c, l)
  | AtRecv =>
      ch ← chanrecv (completions l);
      Some (at_pc AtSelect c, received ch l)
  | AtSelect =>
      if call_done c then Some (at_pc (Returned None) c, l)
      else Some (at_pc AtAdd c, l)
  | AtAdd =>
      if mu_held l then None
      else
        let '(err, l') := add (call_done c) (call_job c) l in
        Some (at_pc (Returned err) c, l')
  | Returned _ => None
  end.

(** A call run with nothing else going on: it returns, or it is stuck in
    the receive or on the mutex. *)
Fixpoint Create_run (fuel : nat) (c : Call E) (l : Limiter) : Outcome D E :=
  match call_pc c with
  | Returned err => Done err l
  | p =>
      match Create_step c l with
      | None => match p with AtRecv => Waiting l | _ => Locked l end
      | Some (c', l') =>
          match fuel with
          | O => Running l'
          | S n => Create_run n c' l'
          end
      end
  end.

(** [l.Create(ctx, job)] with a context that is done, or not, from the
    start and nothing else going on; a call makes four steps at most. *)
Definition Create (ctx_done : bool) (job : Job) (l : Limiter) : Outcome D E :=
  Create_run 4 (mkCall ctx_done job AtEntry) l.


(** ** The limiter among its callers

    Producers call [Create] concurrently and the informer delivers its
    notifications one at a time; every handler runs under [l.mu.Lock()], so
    a notification is a single step unless its send parks. *)

Inductive Event :=
| EvAdd (obj : BatchJob)
| EvUpdate (old obj : BatchJob)
| EvDelete (obj : BatchJob).

Definition handle (ev : Event) (l : Limiter) : Limiter :=
  match ev with
  | EvAdd obj => OnAdd obj l
  | EvUpdate old obj => OnUpdate old obj l
  | EvDelete obj => OnDelete obj l
  end.

(** The object a notification is about (the new one of an update). *)
Definition event_object (ev : Event) : BatchJob :=
  match ev with
  | EvAdd obj | EvUpdate _ obj | EvDelete obj => obj
  end.

Inductive Action :=
| ActCall (ctx_done : bool) (job : Job)
| ActCancel (i : nat)
| ActStep (i : nat)
| ActNotify (ev : Event).

Record System := mkSystem {
  sys_limiter : Limiter;
  sys_calls : list (Call E)
}.

Definition sys_step (a : Action) (s : System) : option System :=
  match a with
  | ActCall ctx_done job =>
      Some (mkSystem (sys_limiter s) (sys_calls s ++ [mkCall ctx_done job AtEntry]))
  | ActCancel i =>
      c ← sys_calls s !! i;
      Some (mkSystem (sys_limiter s) (<[i := cancel c]> (sys_calls s)))
  | ActStep i =>
      c ← sys_calls s !! i;
      '(c', l') ← Create_step c (sys_limiter s);
      Some (mkSystem l' (<[i := c']> (sys_calls s)))
  | ActNotify ev =>
      if mu_held (sys_limiter s) then None
      else Some (mkSystem (handle ev (sys_limiter s)) (sys_calls s))
  end.

Fixpoint sys_run (tr : list Action) (s : System) : option System :=
  match tr with
  | [] => Some s
  | a :: tr' => s' ← sys_step a s; sys_run tr' s'
  end.

(** The object of a notification that takes the terminal transition:
    every delete, and an update whose new object is finished. *)
Definition terminal_object (ev : Event) : option BatchJob :=
  match ev with
  | EvAdd _ => None
  | EvUpdate _ obj => if isFinished obj then Some obj else None
  | EvDelete obj => Some obj
  end.

(** The action is a terminal transition of an identifier that is tracked. *)
Definition releases (a : Action) (s : System) : bool :=
  match a with
  | ActNotify ev =>
      match terminal_object ev with
      | Some obj =>
          negb (mu_held (sys_limiter s))
          && bool_decide (jobUuid obj ∈ inFlight (sys_limiter s))
      | None => false
      end
  | _ => false
  end.

(** The action takes a call out of the receive of line 74. *)
Definition proceeds (a : Action) (s : System) : bool :=
  match a with
  | ActStep i =>
      match sys_calls s !! i with
      | Some c =>
          is_waiting c
          && bool_decide (is_Some (chanrecv (completions (sys_limiter s))))
      | None => false
      end
  | _ => false
  end.

(** How many actions of a trace satisfy [f], each judged in the state it
    is taken in. *)
Fixpoint count_along (f : Action → System → bool) (tr : list Action) (s : System) : nat :=
  match tr with
  | [] => O
  | a :: tr' =>
      ((if f a s then 1 else 0) +
       match sys_step a s with
       | Some s' => count_along f tr' s'
       | None => O
       end)%nat
  end.

Definition waiting_calls (s : System) : nat :=
  length (filter (λ c, is_waiting c = true) (sys_calls s)).

(** Successive [Create] calls, each with a live context, each returning nil
    after a downstream launch. *)
Inductive admissions : Limiter → list Job → Limiter → Prop :=
| admissions_nil l : admissions l [] l
| admissions_cons l job l1 jobs l2 :
    Create false job l = Done None l1 →
    sched_calls (scheduler l1) = job :: sched_calls (scheduler l) →
    admissions l1 jobs l2 →
    admissions l (job :: jobs) l2.

(** The identifiers of the objects of a replay that are not finished. *)
Definition live_uuids (objs : list BatchJob) : list string :=
  jobUuid <$> filter (λ o, isFinished o = false) objs.

(** The calls that have returned. *)
Definition returned_calls (s : System) : nat :=
  length (filter (λ c, has_returned c = true) (sys_calls s)).

(** Rounds on a limiter that is otherwise idle: a job is admitted (a call
    with a live context returns nil after a launch) and its object is then
    deleted, one job after the other. *)
Inductive rounds : Limiter → list (Job * BatchJob) → Limiter → Prop :=
| rounds_nil l : rounds l [] l
| rounds_cons l job obj l1 rest l2 :
    jobUuid obj = Uuid job →
    Create false job l = Done None l1 →
    sched_calls (scheduler l1) = job :: sched_calls (scheduler l) →
    rounds (OnDelete obj l1) rest l2 →
    rounds l ((job, obj) :: rest) l2.

(** Replay: [OnAdd] for each object, in order. *)
Definition replay (objs : list BatchJob) (l : Limiter) : Limiter :=
  fold_left (λ l obj, OnAdd obj l) objs l.

End Limiter.

Arguments System D E : clear implicits.

(** ** RegisterInformer

    The function is calls into client-go in a fixed order; what those
    calls answer is taken as given: the error of each
    [labels.NewRequirement], the error of [AddEventHandler], and whether
    [cache.WaitForCacheSync] reports a synced cache.  [C] is the type of
    the errors they return. *)
Record InformerCalls (C : Type) := mkInformerCalls {
  tagRequirement : option C;
  uuidRequirement : option C;
  addEventHandler : option C;
  waitForCacheSync : bool
}.
Arguments mkInformerCalls {C}.
Arguments tagRequirement {C}.
Arguments uuidRequirement {C}.
Arguments addEventHandler {C}.
Arguments waitForCacheSync {C}.

(** [fmt.Errorf] with [%w] keeps the cause; without it there is none. *)
Inductive InformerError (C : Type) :=
| Wrapped (msg : string) (cause : C)
| Plain (msg : string).
Arguments Wrapped {C}.
Arguments Plain {C}.

(** [errors.Unwrap] *)
Definition Unwrap {C} (err : InformerError C) : option C :=
  match err with
  | Wrapped _ cause => Some cause
  | Plain _ => None
  end.

(** What the function has done to the informer by the time it returns,
    oldest first. *)
Inductive InformerEffect :=
| HandlerRegistered
| FactoryStarted
| CacheSyncAwaited.

Definition RegisterInformer {C} (k : InformerCalls C)
    : option (InformerError C) * list InformerEffect :=
  match tagRequirement k with
  | Some err =>
      (Some (Wrapped "failed to build tag label selector for job manager" err), [])
  | None =>
      match uuidRequirement k with
      | Some err =>
          (Some (Wrapped "failed to build uuid label selector for job manager" err), [])
      | None =>
          match addEventHandler k with
          | Some err => (Some (Wrapped "failed to register event handler" err), [])
          | None =>
              if waitForCacheSync k
              then (None, [HandlerRegistered; FactoryStarted; CacheSyncAwaited])
              else (Some (Plain "failed to sync informer cache"),
                    [HandlerRegistered; FactoryStarted; CacheSyncAwaited])
          end
      end
  end.

(** ** A scheduler to run the limiter with

    Its state lists the identifiers whose next launch fails; each listed
    occurrence fails one launch. *)
Fixpoint remove_first (u : string) (us : list string) : list string :=
  match us with
  | [] => []
  | v :: vs => if bool_decide (u = v) then vs else v :: remove_first u vs
  end.

Definition fake_Create (ctx_done : bool) (job : Job) (failing : list string)
    : option string * list string :=
  if bool_decide (Uuid job ∈ failing)
  then (Some ("launch failed: " +:+ Uuid job), remove_first (Uuid job) failing)
  else (None, failing).

#[local] Instance fake_handler : JobHandler (list string) string := fake_Create.

Definition uuid_label : string := "buildkite.com/job-uuid".

Definition obj (uuid : string) (conds : list JobCondition) : BatchJob :=
  mkBatchJob {[ uuid_label := uuid ]} conds.

Definition limiter_of (failing : list string) (max : nat) (tracked : list string)
    : MaxInFlightLimiter (list string) :=
  mkLimiter (mkDownstream failing []) (Z.of_nat max) (list_to_set tracked)
            (mkChan max 0 0).

Definition job_a : Job := mkJob "a" "make a".
Definition job_b : Job := mkJob "b" "make b".
Definition job_c : Job := mkJob "c" "make c".

(** A limiter with limit 2 after the admission of job a, and then of
    job b. *)
Definition one_in_flight : MaxInFlightLimiter (list string) :=
  mkLimiter (mkDownstream [] [job_a]) 2 {["a"]} (mkChan 2 0 0).

Definition two_in_flight : MaxInFlightLimiter (list string) :=
  mkLimiter (mkDownstream [] [job_b; job_a]) 2 {["a"; "b"]} (mkChan 2 0 0).

(** Limit 1, job a admitted and deleted, job b admitted: one identifier
    in flight and the token of a still in the buffer. *)
Definition stale_token : MaxInFlightLimiter (list string) :=
  mkLimiter (mkDownstream [] [job_b; job_a]) 1 {["b"]} (mkChan 1 1 0).

(** A limiter as [NewLimiter] makes it, with no call yet. *)
Definition fresh (max : nat) : System (list string) string :=
  mkSystem (limiter_of [] max []) [].

(** Job a is admitted; the call for job b comes to the receive and its
    context is cancelled there. *)
Definition cancelled_wait : list Action :=
  [ActCall false job_a; ActStep 0; ActStep 0; ActStep 0;
   ActCall false job_b; ActStep 1; ActCancel 1].

(** Job a is admitted and then deleted. *)
Definition admitted_then_deleted : list Action :=
  [ActCall false job_a; ActStep 0; ActStep 0; ActStep 0;
   ActNotify (EvDelete (obj "a" []))].

(** Two running jobs are found at startup and then deleted. *)
Definition replayed_then_deleted : list Action :=
  [ActNotify (EvAdd (obj "a" [])); ActNotify (EvAdd (obj "b" []));
   ActNotify (EvDelete (obj "a" [])); ActNotify (EvDelete (obj "b" []))].

(** * Properties *)

(** ** The terminal-state predicate *)

Lemma finished_step_true finished c :
  finished_step finished c = true ↔ finished = true ∨ terminal_type c.
Proof.
  unfold finished_step, terminal_type.
  repeat case_bool_decide; naive_solver.
Qed.

Lemma finished_fold conds finished :
  fold_left finished_step conds finished = true
  ↔ finished = true ∨ ∃ c, c ∈ conds ∧ terminal_type c.
Proof.
  revert finished. induction conds as [|c conds IH]; intros finished; simpl.
  - split; [auto|]. intros [?|(c & Hc & _)]; [done|]. by apply elem_of_nil in Hc.
  - rewrite IH, finished_step_true. split.
    + intros [[?|?]|(c' & ? & ?)]; [by left| |].
      * right. exists c. split; [left|done].
      * right. exists c'. split; [by right|done].
    + intros [?|(c' & Hin & ?)]; [by left; left|].
      apply elem_of_cons in Hin as [->|?]; [by left; right|].
      right. by exists c'.
Qed.

(** C10: a job is finished if and only if some condition of its status has
    type Complete or Failed; the [Status] of the conditions plays no part
    (rewriting every status, to False or Unknown say, changes nothing), and
    a job without conditions is not finished. *)
Theorem isFinished_by_type_only (job : BatchJob) :
  (isFinished job = true ↔ ∃ c, c ∈ Conditions job ∧ terminal_type c)
  ∧ (∀ f, isFinished (with_status f job) = isFinished job)
  ∧ (∀ labels, isFinished (mkBatchJob labels []) = false).
Proof.
  split; [|split].
  - unfold isFinished. rewrite finished_fold. naive_solver.
  - intros f. apply eq_true_iff_eq. unfold isFinished.
    rewrite !finished_fold. simpl. split.
    + intros [?|(c & Hin & Ht)]; [done|]. right.
      apply list_elem_of_fmap in Hin as (c0 & -> & Hin0). by exists c0.
    + intros [?|(c & Hin & Ht)]; [done|]. right.
      exists (mkCondition (CondType c) (f c)). split; [|done].
      apply list_elem_of_fmap. by exists c.
  - done.
Qed.

(** ** The channel *)

Lemma chansend_tokens c : tokens (chansend c) = S (tokens c).
Proof. unfold tokens, chansend. case_bool_decide; simpl; lia. Qed.

Lemma chansend_dataqsiz c : dataqsiz (chansend c) = dataqsiz c.
Proof. unfold chansend. by case_bool_decide. Qed.

Lemma chansend_room c :
  (qcount c < dataqsiz c)%nat →
  chansend c = mkChan (dataqsiz c) (S (qcount c)) (sendq c).
Proof. intros. unfold chansend. by rewrite bool_decide_eq_true_2. Qed.

Lemma chansend_full c :
  (dataqsiz c ≤ qcount c)%nat →
  chansend c = mkChan (dataqsiz c) (qcount c) (S (sendq c)).
Proof. intros. unfold chansend. rewrite bool_decide_eq_false_2; [done|lia]. Qed.

Lemma chanrecv_None c : chanrecv c = None ↔ tokens c = O.
Proof.
  unfold chanrecv, tokens. destruct (qcount c), (sendq c); simpl; split; (done || lia).
Qed.

Lemma chanrecv_Some c c' :
  chanrecv c = Some c' → tokens c = S (tokens c') ∧ dataqsiz c' = dataqsiz c.
Proof.
  unfold chanrecv, tokens.
  destruct (qcount c), (sendq c); intros; simplify_eq; simpl; split; (done || lia).
Qed.

Lemma chanrecv_sendq c c' : chanrecv c = Some c' → (sendq c' ≤ sendq c)%nat.
Proof.
  unfold chanrecv. destruct (qcount c), (sendq c); intros; simplify_eq; simpl; lia.
Qed.

(** A send on a channel without a parked sender, followed by a receive,
    leaves the channel as it was. *)
Lemma chanrecv_chansend c : sendq c = O → chanrecv (chansend c) = Some c.
Proof.
  destruct c as [sz q s]. unfold chansend, chanrecv. simpl. intros ->.
  case_bool_decide; simpl; [done|]. by destruct q.
Qed.

Lemma mu_held_false {D} (l : MaxInFlightLimiter D) :
  mu_held l = false ↔ sendq (completions l) = O.
Proof. unfold mu_held. rewrite bool_decide_eq_false. lia. Qed.

Lemma mu_held_true {D} (l : MaxInFlightLimiter D) :
  mu_held l = true ↔ (0 < sendq (completions l))%nat.
Proof. unfold mu_held. by rewrite bool_decide_eq_true. Qed.

(** ** The informer handlers *)

Section Handlers.

Variable UUIDLabel : string.
Context {D : Type}.

Abbreviation Limiter := (MaxInFlightLimiter D).
Abbreviation uuid_of := (jobUuid UUIDLabel).

Lemma markComplete_tracked job (l : Limiter) :
  uuid_of job ∈ inFlight l →
  markComplete UUIDLabel job l = signal (untrack (uuid_of job) l).
Proof. intros. unfold markComplete. by rewrite decide_True. Qed.

Lemma markComplete_untracked job (l : Limiter) :
  uuid_of job ∉ inFlight l → markComplete UUIDLabel job l = l.
Proof. intros. unfold markComplete. by rewrite decide_False. Qed.

Lemma markComplete_tokens job (l : Limiter) :
  tokens (completions (markComplete UUIDLabel job l))
  = ((if decide (uuid_of job ∈ inFlight l) then 1 else 0) + tokens (completions l))%nat.
Proof.
  unfold markComplete. case_decide; simpl; [|done]. apply chansend_tokens.
Qed.

Lemma markComplete_fields job (l : Limiter) :
  scheduler (markComplete UUIDLabel job l) = scheduler l
  ∧ MaxInFlight (markComplete UUIDLabel job l) = MaxInFlight l
  ∧ dataqsiz (completions (markComplete UUIDLabel job l)) = dataqsiz (completions l).
Proof.
  unfold markComplete. case_decide; simpl; [|done].
  by rewrite chansend_dataqsiz.
Qed.

(** C4: the terminal transition.  For an object whose identifier is
    tracked, markComplete removes the identifier (the set loses exactly one
    element) and sends exactly one token on the completions channel: the
    token is buffered when the channel has room, and otherwise the handler
    is parked in that one send.  For an object whose identifier is not
    tracked it changes nothing.  So a second OnDelete for the same object
    changes nothing and sends no further token, and an OnDelete for an
    object that was never tracked leaves the limiter, an empty set
    included, as it is. *)
Theorem markComplete_terminal_transition (job : BatchJob) (l : Limiter) :
  (uuid_of job ∈ inFlight l →
     let l' := markComplete UUIDLabel job l in
     inFlight l' = inFlight l ∖ {[uuid_of job]}
     ∧ S (size (inFlight l')) = size (inFlight l)
     ∧ tokens (completions l') = S (tokens (completions l))
     ∧ ((qcount (completions l) < dataqsiz (completions l))%nat →
          qcount (completions l') = S (qcount (completions l))
          ∧ sendq (completions l') = sendq (completions l))
     ∧ ((dataqsiz (completions l) ≤ qcount (completions l))%nat →
          qcount (completions l') = qcount (completions l)
          ∧ sendq (completions l') = S (sendq (completions l)))
     ∧ OnDelete UUIDLabel job (OnDelete UUIDLabel job l) = OnDelete UUIDLabel job l
     ∧ tokens (completions (OnDelete UUIDLabel job (OnDelete UUIDLabel job l)))
       = S (tokens (completions l)))
  ∧ (uuid_of job ∉ inFlight l →
       markComplete UUIDLabel job l = l ∧ OnDelete UUIDLabel job l = l)
  ∧ (inFlight l = ∅ → inFlight (OnDelete UUIDLabel job l) = ∅).
Proof.
  split; [|split].
  - intros Hin l'.
    assert (Hl' : l' = signal (untrack (uuid_of job) l))
      by (by apply markComplete_tracked).
    assert (Hgone : uuid_of job ∉ inFlight l') by (rewrite Hl'; simpl; set_solver).
    assert (Htok : tokens (completions l') = S (tokens (completions l)))
      by (rewrite Hl'; simpl; apply chansend_tokens).
    split; [by rewrite Hl'|]. split.
    { rewrite Hl'. simpl. rewrite size_difference by set_solver.
      rewrite size_singleton.
      assert (size (inFlight l) ≠ O)
        by (intros ?%size_empty_iff; set_solver).
      lia. }
    split; [done|]. split.
    { intros Hroom. rewrite Hl'. simpl. by rewrite chansend_room. }
    split.
    { intros Hfull. rewrite Hl'. simpl. by rewrite chansend_full. }
    unfold OnDelete. fold l'.
    rewrite (markComplete_untracked job l' Hgone). done.
  - intros Hout. unfold OnDelete. by rewrite markComplete_untracked.
  - intros Hempty. unfold OnDelete.
    rewrite markComplete_untracked; [done|]. rewrite Hempty. set_solver.
Qed.

Lemma OnAdd_finished obj (l : Limiter) :
  isFinished obj = true → OnAdd UUIDLabel obj l = l.
Proof. intros Hf. unfold OnAdd. by rewrite Hf. Qed.

Lemma OnAdd_tracked obj (l : Limiter) :
  uuid_of obj ∈ inFlight l → OnAdd UUIDLabel obj l = l.
Proof.
  intros Hin. unfold OnAdd. destruct (isFinished obj); simpl; [done|].
  by rewrite decide_True.
Qed.

Lemma OnAdd_inFlight obj (l : Limiter) :
  inFlight (OnAdd UUIDLabel obj l)
  = if isFinished obj then inFlight l else {[uuid_of obj]} ∪ inFlight l.
Proof.
  unfold OnAdd. destruct (isFinished obj); simpl; [done|].
  case_decide; simpl; [set_solver|done].
Qed.

Lemma OnAdd_fields obj (l : Limiter) :
  scheduler (OnAdd UUIDLabel obj l) = scheduler l
  ∧ MaxInFlight (OnAdd UUIDLabel obj l) = MaxInFlight l
  ∧ completions (OnAdd UUIDLabel obj l) = completions l.
Proof.
  unfold OnAdd. destruct (isFinished obj); simpl; [done|]. by case_decide.
Qed.

Lemma replay_inFlight objs (l : Limiter) :
  inFlight (replay UUIDLabel objs l)
  = list_to_set (live_uuids UUIDLabel objs) ∪ inFlight l.
Proof.
  unfold replay, live_uuids. revert l.
  induction objs as [|obj objs IH]; intros l; simpl; [set_solver|].
  rewrite IH, OnAdd_inFlight, filter_cons.
  destruct (isFinished obj) eqn:Hf.
  - rewrite decide_False by done. done.
  - rewrite decide_True by done. rewrite fmap_cons, list_to_set_cons. set_solver.
Qed.

Lemma replay_fields objs (l : Limiter) :
  scheduler (replay UUIDLabel objs l) = scheduler l
  ∧ MaxInFlight (replay UUIDLabel objs l) = MaxInFlight l
  ∧ completions (replay UUIDLabel objs l) = completions l.
Proof.
  unfold replay. revert l. induction objs as [|obj objs IH]; intros l; simpl; [done|].
  destruct (IH (OnAdd UUIDLabel obj l)) as (-> & -> & ->). apply OnAdd_fields.
Qed.

(** C8: OnAdd tracks the identifier of an object exactly when the object is
    not finished, and changes nothing else; it is idempotent, and a
    finished object leaves the limiter as it is (nothing tracked, no
    token).  So the replay of any list of objects on a fresh limiter, in
    which the objects that are not finished have distinct identifiers,
    leaves as many identifiers in flight as there are such objects, and no
    token. *)
Theorem OnAdd_tracks_unfinished (obj : BatchJob) (l : Limiter) :
  (isFinished obj = false →
     inFlight (OnAdd UUIDLabel obj l) = {[uuid_of obj]} ∪ inFlight l)
  ∧ (isFinished obj = true → OnAdd UUIDLabel obj l = l)
  ∧ (uuid_of obj ∈ inFlight l → OnAdd UUIDLabel obj l = l)
  ∧ OnAdd UUIDLabel obj (OnAdd UUIDLabel obj l) = OnAdd UUIDLabel obj l
  ∧ completions (OnAdd UUIDLabel obj l) = completions l
  ∧ scheduler (OnAdd UUIDLabel obj l) = scheduler l
  ∧ (∀ (sched : D) maxInFlight l0 objs,
       NewLimiter sched maxInFlight = Some l0 →
       NoDup (live_uuids UUIDLabel objs) →
       size (inFlight (replay UUIDLabel objs l0))
         = length (filter (λ o, isFinished o = false) objs)
       ∧ tokens (completions (replay UUIDLabel objs l0)) = O).
Proof.
  split; [|split; [|split; [|split; [|split; [|split]]]]].
  - intros Hf. by rewrite OnAdd_inFlight, Hf.
  - apply OnAdd_finished.
  - apply OnAdd_tracked.
  - destruct (isFinished obj) eqn:Hf.
    + by rewrite !OnAdd_finished.
    + apply OnAdd_tracked. rewrite OnAdd_inFlight, Hf. set_solver.
  - apply OnAdd_fields.
  - apply OnAdd_fields.
  - intros sched maxInFlight l0 objs Hnew Hnodup.
    unfold NewLimiter, makeChan in Hnew. case_bool_decide; simplify_eq/=.
    destruct (replay_fields objs
      (mkLimiter (mkDownstream sched []) maxInFlight ∅
         (mkChan (Z.to_nat maxInFlight) 0 0))) as (_ & _ & ->).
    split; [|done].
    rewrite replay_inFlight. simpl. rewrite (right_id_L ∅ (∪)).
    rewrite size_list_to_set by done.
    unfold live_uuids. by rewrite length_fmap.
Qed.

Lemma OnUpdate_finished old obj (l : Limiter) :
  isFinished obj = true → OnUpdate UUIDLabel old obj l = markComplete UUIDLabel obj l.
Proof. intros Hf. unfold OnUpdate. by rewrite Hf. Qed.

Lemma OnUpdate_unfinished old obj (l : Limiter) :
  isFinished obj = false → OnUpdate UUIDLabel old obj l = OnAdd UUIDLabel obj l.
Proof. intros Hf. unfold OnUpdate, OnAdd. by rewrite Hf. Qed.

(** C9: OnUpdate reads the new object only.  If the new object is finished
    it takes the terminal transition: a tracked identifier is removed and
    one token is sent, an untracked one changes nothing.  If the new object
    is not finished, an untracked identifier becomes tracked (and nothing
    else changes) and a tracked one changes nothing. *)
Theorem OnUpdate_reads_new_object (old old' obj : BatchJob) (l : Limiter) :
  OnUpdate UUIDLabel old obj l = OnUpdate UUIDLabel old' obj l
  ∧ (isFinished obj = true →
       OnUpdate UUIDLabel old obj l = markComplete UUIDLabel obj l
       ∧ (uuid_of obj ∈ inFlight l →
            inFlight (OnUpdate UUIDLabel old obj l) = inFlight l ∖ {[uuid_of obj]}
            ∧ tokens (completions (OnUpdate UUIDLabel old obj l))
              = S (tokens (completions l)))
       ∧ (uuid_of obj ∉ inFlight l → OnUpdate UUIDLabel old obj l = l))
  ∧ (isFinished obj = false →
       (uuid_of obj ∉ inFlight l →
          inFlight (OnUpdate UUIDLabel old obj l) = {[uuid_of obj]} ∪ inFlight l
          ∧ completions (OnUpdate UUIDLabel old obj l) = completions l
          ∧ scheduler (OnUpdate UUIDLabel old obj l) = scheduler l
          ∧ MaxInFlight (OnUpdate UUIDLabel old obj l) = MaxInFlight l)
       ∧ (uuid_of obj ∈ inFlight l → OnUpdate UUIDLabel old obj l = l)).
Proof.
  split; [done|]. split.
  - intros Hf. rewrite OnUpdate_finished by done. split; [done|]. split.
    + intros Hin.
      rewrite markComplete_tracked by done. simpl. split; [done|].
      apply chansend_tokens.
    + apply markComplete_untracked.
  - intros Hf. rewrite OnUpdate_unfinished by done. split.
    + intros Hout. rewrite OnAdd_inFlight, Hf.
      split; [done|]. destruct (OnAdd_fields obj l) as (? & ? & ?). done.
    + apply OnAdd_tracked.
Qed.

End Handlers.

(** ** The Create call on its own *)

Section CreateCall.

Context {D E : Type} `{!JobHandler D E}.

Abbreviation Limiter := (MaxInFlightLimiter D).

Lemma at_capacity_true (l : Limiter) :
  at_capacity l = true ↔ 0 < MaxInFlight l ∧ MaxInFlight l ≤ lenInFlight l.
Proof.
  unfold at_capacity. rewrite andb_true_iff, !bool_decide_eq_true. lia.
Qed.

Lemma at_capacity_false (l : Limiter) :
  at_capacity l = false ↔ MaxInFlight l ≤ 0 ∨ lenInFlight l < MaxInFlight l.
Proof.
  rewrite <- not_true_iff_false, at_capacity_true. lia.
Qed.

Lemma add_tracked ctx job (l : Limiter) :
  Uuid job ∈ inFlight l → add ctx job l = (None, l).
Proof. intros. unfold add. by rewrite decide_True. Qed.

Lemma add_error ctx job (l : Limiter) e d' :
  Uuid job ∉ inFlight l →
  handler_Create ctx job (sched_state (scheduler l)) = (Some e, d') →
  add ctx job l
  = (Some e, mkLimiter (mkDownstream d' (job :: sched_calls (scheduler l)))
               (MaxInFlight l) (inFlight l) (completions l)).
Proof.
  intros Hout Hh. unfold add, scheduler_Create.
  rewrite decide_False by done. by rewrite Hh.
Qed.

Lemma add_launched ctx job (l : Limiter) d' :
  Uuid job ∉ inFlight l →
  handler_Create ctx job (sched_state (scheduler l)) = (None, d') →
  add ctx job l
  = (None, mkLimiter (mkDownstream d' (job :: sched_calls (scheduler l)))
             (MaxInFlight l) ({[Uuid job]} ∪ inFlight l) (completions l)).
Proof.
  intros Hout Hh. unfold add, scheduler_Create.
  rewrite decide_False by done. by rewrite Hh.
Qed.

(** What add leaves alone, and what its answers mean. *)
Lemma add_cases ctx job (l : Limiter) err l' :
  add ctx job l = (err, l') →
  MaxInFlight l' = MaxInFlight l ∧ completions l' = completions l
  ∧ ((Uuid job ∈ inFlight l ∧ err = None ∧ l' = l)
     ∨ ((Uuid job ∉ inFlight l)
        ∧ sched_calls (scheduler l') = job :: sched_calls (scheduler l)
        ∧ ((is_Some err ∧ inFlight l' = inFlight l)
           ∨ (err = None ∧ inFlight l' = {[Uuid job]} ∪ inFlight l)))).
Proof.
  unfold add, scheduler_Create. case_decide as Hin.
  - intros [= <- <-]. naive_solver.
  - destruct (handler_Create ctx job (sched_state (scheduler l))) as [[e|] d'];
      intros [= <- <-]; simpl; naive_solver.
Qed.

Lemma Create_locked ctx job (l : Limiter) :
  mu_held l = true → Create ctx job l = Locked l.
Proof. intros Hmu. unfold Create. simpl. unfold Create_step. simpl. by rewrite Hmu. Qed.

Lemma Create_past_gate ctx job (l : Limiter) :
  mu_held l = false →
  Create_run 2 (mkCall ctx job AtSelect) l
  = if ctx then Done None l else Done (add false job l).1 (add false job l).2.
Proof.
  intros Hmu. destruct ctx; simpl; unfold Create_step; simpl; [done|].
  rewrite Hmu. by destruct (add false job l).
Qed.

Lemma Create_no_wait ctx job (l : Limiter) :
  mu_held l = false → at_capacity l = false →
  Create ctx job l
  = if ctx then Done None l else Done (add false job l).1 (add false job l).2.
Proof.
  intros Hmu Hcap. rewrite <- Create_past_gate by done.
  unfold Create. simpl. unfold Create_step at 1. simpl. rewrite Hmu, Hcap.
  destruct ctx; simpl; unfold Create_step; simpl; [done|].
  rewrite Hmu. by destruct (add false job l).
Qed.

Lemma Create_waits ctx job (l : Limiter) :
  mu_held l = false → at_capacity l = true →
  chanrecv (completions l) = None →
  Create ctx job l = Waiting l.
Proof.
  intros Hmu Hcap Hrecv. unfold Create. simpl. unfold Create_step at 1. simpl.
  rewrite Hmu, Hcap. simpl. unfold Create_step. simpl. by rewrite Hrecv.
Qed.

Lemma received_mu_free ch (l : Limiter) :
  mu_held l = false → chanrecv (completions l) = Some ch →
  mu_held (received ch l) = false.
Proof.
  rewrite !mu_held_false. intros Hmu Hrecv%chanrecv_sendq. simpl. lia.
Qed.

Lemma Create_takes_token ctx job (l : Limiter) ch :
  mu_held l = false → at_capacity l = true →
  chanrecv (completions l) = Some ch →
  Create ctx job l
  = if ctx then Done None (received ch l)
    else Done (add false job (received ch l)).1 (add false job (received ch l)).2.
Proof.
  intros Hmu Hcap Hrecv.
  rewrite <- Create_past_gate by eauto using received_mu_free.
  unfold Create. simpl. unfold Create_step at 1. simpl.
  rewrite Hmu, Hcap. simpl. unfold Create_step at 1. simpl. rewrite Hrecv. simpl.
  destruct ctx; simpl; unfold Create_step; simpl; [done|].
  rewrite (received_mu_free ch l) by done.
  by destruct (add false job (received ch l)).
Qed.

(** A call run on its own never uses up its four steps. *)
Lemma Create_total ctx job (l : Limiter) l' : Create ctx job l ≠ Running l'.
Proof.
  destruct (mu_held l) eqn:Hmu; [by rewrite Create_locked|].
  destruct (at_capacity l) eqn:Hcap.
  - destruct (chanrecv (completions l)) as [ch|] eqn:Hrecv.
    + rewrite (Create_takes_token _ _ _ ch) by done. by destruct ctx.
    + by rewrite Create_waits.
  - rewrite Create_no_wait by done. by destruct ctx.
Qed.

End CreateCall.

(** ** Admission: duplicates and downstream failures *)

Section Admission.

Context {D E : Type} `{!JobHandler D E}.

Abbreviation Limiter := (MaxInFlightLimiter D).

Lemma cons_neq {A} (x : A) (xs : list A) : x :: xs ≠ xs.
Proof. intros Heq. apply (f_equal length) in Heq. simpl in Heq. lia. Qed.

(** No step of a call for a tracked identifier launches or changes the
    set, and such a step returns nil if it returns. *)
Lemma Create_step_tracked (c c' : Call E) (l l' : Limiter) :
  Uuid (call_job c) ∈ inFlight l →
  Create_step c l = Some (c', l') →
  scheduler l' = scheduler l ∧ inFlight l' = inFlight l
  ∧ ∀ err, call_pc c' = Returned err → err = None.
Proof.
  intros Hin. unfold Create_step.
  destruct (call_pc c) eqn:Hpc; intros Hstep.
  - destruct (mu_held l); [done|].
    destruct (at_capacity l); simplify_eq/=; done.
  - destruct (chanrecv (completions l)); simplify_eq/=. done.
  - destruct (call_done c); simplify_eq/=; [|done].
    split; [done|]. split; [done|]. by intros ? [= <-].
  - destruct (mu_held l); [done|].
    rewrite add_tracked in Hstep by done. simplify_eq/=.
    split; [done|]. split; [done|]. by intros ? [= <-].
  - done.
Qed.

(** A call for a tracked identifier, run on its own, launches nothing and
    leaves the set alone, however it ends. *)
Lemma Create_tracked_outcome ctx job (l : Limiter) :
  Uuid job ∈ inFlight l →
  scheduler (outcome_limiter (Create ctx job l)) = scheduler l
  ∧ inFlight (outcome_limiter (Create ctx job l)) = inFlight l.
Proof.
  intros Hin. destruct (mu_held l) eqn:Hmu; [by rewrite Create_locked|].
  destruct (at_capacity l) eqn:Hcap.
  - destruct (chanrecv (completions l)) as [ch|] eqn:Hrecv.
    + rewrite (Create_takes_token _ _ _ ch) by done.
      destruct ctx; [done|]. by rewrite add_tracked.
    + by rewrite Create_waits.
  - rewrite Create_no_wait by done. destruct ctx; [done|]. by rewrite add_tracked.
Qed.

(** A call that returned nil after a launch has tracked its identifier. *)
Lemma Create_launch_tracks job (l l1 : Limiter) :
  Create false job l = Done None l1 →
  sched_calls (scheduler l1) = job :: sched_calls (scheduler l) →
  Uuid job ∈ inFlight l1 ∧ (Uuid job ∉ inFlight l)
  ∧ size (inFlight l1) = S (size (inFlight l))
  ∧ MaxInFlight l1 = MaxInFlight l
  ∧ mu_held l = false.
Proof.
  intros Hdone Hcalls.
  destruct (mu_held l) eqn:Hmu; [by rewrite Create_locked in Hdone|].
  assert (Hadd : ∀ l0 : Limiter,
    inFlight l0 = inFlight l → scheduler l0 = scheduler l →
    MaxInFlight l0 = MaxInFlight l →
    Done (E:=E) (add false job l0).1 (add false job l0).2 = Done None l1 →
    Uuid job ∈ inFlight l1 ∧ (Uuid job ∉ inFlight l)
    ∧ size (inFlight l1) = S (size (inFlight l))
    ∧ MaxInFlight l1 = MaxInFlight l).
  { intros l0 Hset Hsched Hmax Heq.
    destruct (add false job l0) as [err l'] eqn:Ha. simpl in Heq.
    injection Heq as -> ->.
    apply add_cases in Ha as (HM & _ & [(Hin & _ & ->)|(Hout & Hc & [[[? ?] _]|[_ Hset']])]).
    - rewrite Hsched in Hcalls. symmetry in Hcalls. by apply cons_neq in Hcalls.
    - done.
    - rewrite Hset', <- Hset.
      split; [set_solver|]. split; [done|].
      split; [|congruence]. rewrite size_union by set_solver.
      by rewrite size_singleton. }
  destruct (at_capacity l) eqn:Hcap.
  - destruct (chanrecv (completions l)) as [ch|] eqn:Hrecv.
    + rewrite (Create_takes_token _ _ _ ch) in Hdone by done.
      destruct (Hadd (received ch l)) as (? & ? & ? & ?); done.
    + by rewrite Create_waits in Hdone.
  - rewrite Create_no_wait in Hdone by done.
    destruct (Hadd l) as (? & ? & ? & ?); done.
Qed.

(** C2, as the code has it: for a job whose Uuid is in the in-flight set,
    add returns nil, launches nothing and changes nothing.  A Create call
    comes to add only past the capacity test: below capacity (or with
    MaxInFlight not positive) it returns nil at once and changes nothing;
    at capacity it waits while the channel holds no token and, given one,
    takes it and returns nil with nothing else changed.  No step of such a
    call launches or changes the set.  Hence, once a call has returned nil
    after a launch, a further call for the same identifier launches
    nothing, however it ends: one launch for the two. *)
Theorem Create_duplicate_past_gate (ctx : bool) (job : Job) (l : Limiter)
    (Htracked : Uuid job ∈ inFlight l) :
  add ctx job l = (None, l)
  ∧ (mu_held l = false → at_capacity l = false → Create ctx job l = Done None l)
  ∧ (mu_held l = false → at_capacity l = true →
       (chanrecv (completions l) = None → Create ctx job l = Waiting l)
       ∧ (∀ ch, chanrecv (completions l) = Some ch →
            Create ctx job l = Done None (received ch l)))
  ∧ (∀ c c' l', call_job c = job → Create_step c l = Some (c', l') →
       scheduler l' = scheduler l ∧ inFlight l' = inFlight l
       ∧ ∀ err, call_pc c' = Returned err → err = None)
  ∧ (∀ l0 ctx' job',
       Create false job l0 = Done None l →
       sched_calls (scheduler l) = job :: sched_calls (scheduler l0) →
       Uuid job' = Uuid job →
       sched_calls (scheduler (outcome_limiter (Create ctx' job' l)))
       = job :: sched_calls (scheduler l0)).
Proof.
  split; [by apply add_tracked|]. split; [|split; [|split]].
  - intros Hmu Hcap. rewrite Create_no_wait by done.
    destruct ctx; [done|]. by rewrite add_tracked.
  - intros Hmu Hcap. split.
    + intros Hrecv. by apply Create_waits.
    + intros ch Hrecv. rewrite (Create_takes_token _ _ _ ch) by done.
      destruct ctx; [done|]. by rewrite add_tracked.
  - intros c c' l' <-. by apply Create_step_tracked.
  - intros l0 ctx' job' _ Hcalls Hsame.
    destruct (Create_tracked_outcome ctx' job' l) as [-> _]; [|done].
    by rewrite Hsame.
Qed.

(** C3: when the downstream Create fails for a job that is not tracked,
    add returns exactly its error, records nothing (the set and the
    channel are as before) and has asked the scheduler once; so does the
    step of a Create call that runs add, and so does a whole call with a
    live context, at once below capacity and after its receive at
    capacity.  The identifier is still untracked afterwards, so a retry
    asks the scheduler again. *)
Theorem add_failure_not_recorded (ctx : bool) (job : Job) (l : Limiter)
    (e : E) (d' : D)
    (Huntracked : Uuid job ∉ inFlight l)
    (Hfails : handler_Create ctx job (sched_state (scheduler l)) = (Some e, d')) :
  let l' := (add ctx job l).2 in
  (add ctx job l).1 = Some e
  ∧ inFlight l' = inFlight l
  ∧ completions l' = completions l
  ∧ MaxInFlight l' = MaxInFlight l
  ∧ scheduler l' = mkDownstream d' (job :: sched_calls (scheduler l))
  ∧ (∀ c, call_pc c = AtAdd → call_job c = job → call_done c = ctx →
       mu_held l = false →
       Create_step c l = Some (at_pc (Returned (Some e)) c, l'))
  ∧ (ctx = false → mu_held l = false →
       (at_capacity l = false → Create false job l = Done (Some e) l')
       ∧ (at_capacity l = true → ∀ ch, chanrecv (completions l) = Some ch →
            Create false job l = Done (Some e) (received ch l')))
  ∧ (Uuid job ∉ inFlight l')
  ∧ (∀ ctx2, sched_calls (scheduler (add ctx2 job l').2)
             = job :: job :: sched_calls (scheduler l)).
Proof.
  intros l'. subst l'. rewrite (add_error _ _ _ e d') by done. simpl.
  repeat (split; [done|]). split; [|split; [|split; [done|]]].
  - intros c Hpc Hjob Hctx Hmu. unfold Create_step. rewrite Hpc, Hmu, Hjob, Hctx.
    by rewrite (add_error _ _ _ e d').
  - intros -> Hmu. split.
    + intros Hcap. rewrite Create_no_wait by done.
      by rewrite (add_error _ _ _ e d').
    + intros Hcap ch Hrecv. rewrite (Create_takes_token _ _ _ ch) by done.
      by rewrite (add_error false job (received ch l) e d').
  - intros ctx2.
    set (l1 := mkLimiter _ _ _ _).
    destruct (add ctx2 job l1) as [err l2] eqn:Ha. simpl.
    apply add_cases in Ha as (_ & _ & [(Hin & _)|(_ & Hc & _)]); [done|].
    by rewrite Hc.
Qed.

End Admission.

(** ** The limiter among its callers *)

Section Interleaving.

Variable UUIDLabel : string.
Context {D E : Type} `{!JobHandler D E}.

Abbreviation Limiter := (MaxInFlightLimiter D).
Abbreviation Sys := (System D E).
Abbreviation step := (sys_step UUIDLabel).
Abbreviation run := (sys_run UUIDLabel).
Abbreviation sys_tokens := (λ s : Sys, tokens (completions (sys_limiter s))).

Lemma run_app tr1 tr2 (s : Sys) :
  run (tr1 ++ tr2) s = run tr1 s ≫= run tr2.
Proof.
  revert s. induction tr1 as [|a tr1 IH]; intros s; simpl; [done|].
  destruct (step a s); simpl; [apply IH|done].
Qed.

(** A step of a call in the receive is a receive. *)
Lemma Create_step_waiting (c c' : Call E) (l l' : Limiter) :
  is_waiting c = true → Create_step c l = Some (c', l') →
  is_waiting c' = false
  ∧ ∃ ch, chanrecv (completions l) = Some ch ∧ l' = received ch l.
Proof.
  unfold is_waiting, Create_step. destruct (call_pc c); try done. intros _ Hstep.
  destruct (chanrecv (completions l)) as [ch|]; simplify_eq/=. eauto.
Qed.

(** Any other step leaves the channel alone; it enters the receive only
    from the entry, at capacity, with the mutex free; and with the mutex
    held it can only be the select. *)
Lemma Create_step_not_waiting (c c' : Call E) (l l' : Limiter) :
  is_waiting c = false → Create_step c l = Some (c', l') →
  completions l' = completions l ∧ MaxInFlight l' = MaxInFlight l
  ∧ (is_waiting c' = true → at_capacity l = true ∧ mu_held l = false)
  ∧ (mu_held l = true → l' = l ∧ is_waiting c' = false).
Proof.
  unfold is_waiting, Create_step.
  destruct (call_pc c) eqn:Hpc; try done; intros _ Hstep.
  - destruct (mu_held l); [done|].
    destruct (at_capacity l); simplify_eq/=; done.
  - destruct (call_done c); simplify_eq/=; done.
  - destruct (mu_held l); [done|].
    destruct (add (call_done c) (call_job c) l) as [err l1] eqn:Ha. simplify_eq/=.
    apply add_cases in Ha as (? & ? & _). done.
Qed.

Lemma handle_tokens ev (l : Limiter) :
  tokens (completions (handle UUIDLabel ev l))
  = ((match terminal_object ev with
      | Some obj => if decide (jobUuid UUIDLabel obj ∈ inFlight l) then 1 else 0
      | None => 0
      end) + tokens (completions l))%nat.
Proof.
  destruct ev as [obj|old obj|obj]; simpl.
  - by destruct (OnAdd_fields UUIDLabel obj l) as (_ & _ & ->).
  - destruct (isFinished obj) eqn:Hf.
    + rewrite OnUpdate_finished by done. apply markComplete_tokens.
    + rewrite OnUpdate_unfinished by done.
      by destruct (OnAdd_fields UUIDLabel obj l) as (_ & _ & ->).
  - apply markComplete_tokens.
Qed.

Lemma handle_MaxInFlight ev (l : Limiter) :
  MaxInFlight (handle UUIDLabel ev l) = MaxInFlight l.
Proof.
  destruct ev as [obj|old obj|obj]; simpl.
  - apply OnAdd_fields.
  - destruct (isFinished obj) eqn:Hf.
    + rewrite OnUpdate_finished by done. apply markComplete_fields.
    + rewrite OnUpdate_unfinished by done. apply OnAdd_fields.
  - apply markComplete_fields.
Qed.

(** Tokens are made by terminal transitions of tracked identifiers and
    used up by calls leaving the receive, one each. *)
Lemma step_tokens a (s s' : Sys) :
  step a s = Some s' →
  (sys_tokens s' + (if proceeds a s then 1 else 0)
   = sys_tokens s + (if releases UUIDLabel a s then 1 else 0))%nat.
Proof.
  destruct a as [ctx job|i|i|ev]; simpl.
  - intros [= <-]. simpl. lia.
  - destruct (sys_calls s !! i); intros; simplify_eq/=. lia.
  - destruct (sys_calls s !! i) as [c|]; [|done]. simpl.
    destruct (Create_step c (sys_limiter s)) as [[c' l']|] eqn:Hstep; [|done].
    intros [= <-]. simpl. destruct (is_waiting c) eqn:Hw; simpl.
    + apply Create_step_waiting in Hstep as (_ & ch & Hrecv & ->); [|done].
      rewrite Hrecv, bool_decide_eq_true_2 by eauto.
      apply chanrecv_Some in Hrecv as [-> _]. simpl. lia.
    + apply Create_step_not_waiting in Hstep as (-> & _); [lia|done].
  - destruct (mu_held (sys_limiter s)) eqn:Hmu; [done|]. intros [= <-]. simpl.
    rewrite handle_tokens. destruct (terminal_object ev); [|lia].
    case_decide.
    + rewrite bool_decide_eq_true_2 by done. lia.
    + rewrite bool_decide_eq_false_2 by done. lia.
Qed.

Lemma run_tokens tr (s s' : Sys) :
  run tr s = Some s' →
  (sys_tokens s' + count_along UUIDLabel proceeds tr s
   = sys_tokens s + count_along UUIDLabel (releases UUIDLabel) tr s)%nat.
Proof.
  revert s. induction tr as [|a tr IH]; intros s; simpl.
  - intros [= <-]. lia.
  - destruct (step a s) as [s1|] eqn:Hstep; [|done]. simpl. intros Hrun.
    apply IH in Hrun. apply step_tokens in Hstep. lia.
Qed.

(** A call in the receive stays there through every step that takes no
    call out of the receive. *)
Lemma step_keeps_waiting a (s s' : Sys) i c :
  step a s = Some s' → proceeds a s = false →
  sys_calls s !! i = Some c → is_waiting c = true →
  ∃ c', sys_calls s' !! i = Some c' ∧ is_waiting c' = true
        ∧ call_job c' = call_job c.
Proof.
  intros Hstep Hquiet Hi Hw. destruct a as [ctx job|j|j|ev]; simpl in *.
  - simplify_eq/=. exists c. rewrite lookup_app_l by eauto using lookup_lt_Some. done.
  - destruct (sys_calls s !! j) as [cj|] eqn:Hj; simplify_eq/=.
    destruct (decide (j = i)) as [->|Hne].
    + exists (cancel c). rewrite list_lookup_insert_eq by eauto using lookup_lt_Some.
      simplify_eq. done.
    + exists c. by rewrite list_lookup_insert_ne.
  - destruct (sys_calls s !! j) as [cj|] eqn:Hj; [|done]. simpl in Hstep.
    destruct (Create_step cj (sys_limiter s)) as [[c' l']|] eqn:Hc; [|done].
    simplify_eq/=. destruct (decide (j = i)) as [->|Hne].
    + simplify_eq. rewrite Hw in Hquiet. simpl in Hquiet.
      apply Create_step_waiting in Hc as (_ & ch & Hrecv & _); [|done].
      rewrite Hrecv in Hquiet. by rewrite bool_decide_eq_true_2 in Hquiet by eauto.
    + exists c. by rewrite list_lookup_insert_ne.
  - destruct (mu_held (sys_limiter s)); simplify_eq/=. eauto.
Qed.

Lemma run_keeps_waiting tr (s s' : Sys) i c :
  run tr s = Some s' → count_along UUIDLabel proceeds tr s = O →
  sys_calls s !! i = Some c → is_waiting c = true →
  ∃ c', sys_calls s' !! i = Some c' ∧ is_waiting c' = true
        ∧ call_job c' = call_job c.
Proof.
  revert s c. induction tr as [|a tr IH]; intros s c; simpl.
  - intros [= <-] _ ??. eauto.
  - destruct (step a s) as [s1|] eqn:Hstep; [|done]. simpl.
    intros Hrun Hcount Hi Hw.
    destruct (proceeds a s) eqn:Hp; [lia|].
    destruct (step_keeps_waiting a s s1 i c) as (c1 & Hi1 & Hw1 & Hj1); try done.
    destruct (IH s1 c1) as (c' & ? & ? & ?); try done.
    exists c'. repeat split; try done. congruence.
Qed.

End Interleaving.

Section Throttling.

Variable UUIDLabel : string.
Context {D E : Type} `{!JobHandler D E}.

Abbreviation Limiter := (MaxInFlightLimiter D).
Abbreviation Sys := (System D E).
Abbreviation step := (sys_step UUIDLabel).
Abbreviation run := (sys_run UUIDLabel).
Abbreviation sys_tokens := (λ s : Sys, tokens (completions (sys_limiter s))).
Abbreviation none_waiting :=
  (λ s : Sys, Forall (λ c : Call E, is_waiting c = false) (sys_calls s)).

Lemma waiting_calls_zero (s : Sys) : waiting_calls s = O ↔ none_waiting s.
Proof.
  unfold waiting_calls. induction (sys_calls s) as [|c cs IH].
  - split; [constructor|done].
  - rewrite filter_cons. destruct (is_waiting c) eqn:Hw.
    + rewrite decide_True by done. simpl. split; [done|].
      intros Hall. apply Forall_cons in Hall as [? _]. congruence.
    + rewrite decide_False by done. rewrite IH. split.
      * by constructor.
      * by intros [_ ?]%Forall_cons.
Qed.

Lemma step_MaxInFlight a (s s' : Sys) :
  step a s = Some s' → MaxInFlight (sys_limiter s') = MaxInFlight (sys_limiter s).
Proof.
  destruct a as [ctx job|i|i|ev]; simpl.
  - by intros [= <-].
  - destruct (sys_calls s !! i); intros; by simplify_eq/=.
  - destruct (sys_calls s !! i) as [c|]; [|done]. simpl.
    destruct (Create_step c (sys_limiter s)) as [[c' l']|] eqn:Hstep; [|done].
    intros [= <-]. simpl. destruct (is_waiting c) eqn:Hw.
    + by apply Create_step_waiting in Hstep as (_ & ch & _ & ->).
    + by apply Create_step_not_waiting in Hstep as (_ & -> & _).
  - destruct (mu_held (sys_limiter s)); [done|]. intros [= <-]. simpl.
    apply handle_MaxInFlight.
Qed.

(** Without a positive limit no call ever comes to the receive. *)
Lemma step_unlimited a (s s' : Sys) :
  MaxInFlight (sys_limiter s) ≤ 0 → none_waiting s →
  step a s = Some s' → none_waiting s'.
Proof.
  intros Hmax Hall. destruct a as [ctx job|i|i|ev]; simpl.
  - intros [= <-]. simpl. apply Forall_app. split; [done|]. by repeat constructor.
  - destruct (sys_calls s !! i) as [c|] eqn:Hi; intros; simplify_eq/=.
    apply Forall_insert; [done|].
    by apply (Forall_lookup_1 _ _ _ _ Hall Hi).
  - destruct (sys_calls s !! i) as [c|] eqn:Hi; [|done]. simpl.
    destruct (Create_step c (sys_limiter s)) as [[c' l']|] eqn:Hstep; [|done].
    intros [= <-]. simpl. apply Forall_insert; [done|].
    pose proof (Forall_lookup_1 _ _ _ _ Hall Hi) as Hw. simpl in Hw.
    apply Create_step_not_waiting in Hstep as (_ & _ & Hin & _); [|done].
    destruct (is_waiting c') eqn:Hw'; [|done].
    destruct Hin as [Hcap _]; [done|].
    apply at_capacity_true in Hcap. lia.
  - destruct (mu_held (sys_limiter s)); [done|]. by intros [= <-].
Qed.

Lemma run_unlimited tr (s s' : Sys) :
  MaxInFlight (sys_limiter s) ≤ 0 → none_waiting s →
  run tr s = Some s' →
  none_waiting s' ∧ MaxInFlight (sys_limiter s') = MaxInFlight (sys_limiter s).
Proof.
  revert s. induction tr as [|a tr IH]; intros s Hmax Hall; simpl.
  - by intros [= <-].
  - destruct (step a s) as [s1|] eqn:Hstep; [|done]. simpl. intros Hrun.
    pose proof (step_MaxInFlight _ _ _ Hstep) as HM.
    destruct (IH s1) as [? ?]; try done; [lia|by eapply step_unlimited|].
    split; [done|congruence].
Qed.

(** Once a handler is parked in its send with no call in the receive, the
    limiter never changes again: every step that is left is the arrival of
    a call, a cancellation, or a select. *)
Lemma step_parked a (s s' : Sys) :
  mu_held (sys_limiter s) = true → none_waiting s →
  step a s = Some s' →
  sys_limiter s' = sys_limiter s ∧ none_waiting s'.
Proof.
  intros Hmu Hall. destruct a as [ctx job|i|i|ev]; simpl.
  - intros [= <-]. simpl. split; [done|].
    apply Forall_app. split; [done|]. by repeat constructor.
  - destruct (sys_calls s !! i) as [c|] eqn:Hi; intros; simplify_eq/=.
    split; [done|]. apply Forall_insert; [done|].
    by apply (Forall_lookup_1 _ _ _ _ Hall Hi).
  - destruct (sys_calls s !! i) as [c|] eqn:Hi; [|done]. simpl.
    destruct (Create_step c (sys_limiter s)) as [[c' l']|] eqn:Hstep; [|done].
    intros [= <-]. simpl.
    pose proof (Forall_lookup_1 _ _ _ _ Hall Hi) as Hw. simpl in Hw.
    apply Create_step_not_waiting in Hstep as (_ & _ & _ & Hheld); [|done].
    destruct Hheld as [-> ?]; [done|]. split; [done|]. by apply Forall_insert.
  - by rewrite Hmu.
Qed.

Lemma run_parked tr (s s' : Sys) :
  mu_held (sys_limiter s) = true → waiting_calls s = O →
  run tr s = Some s' →
  sys_limiter s' = sys_limiter s ∧ waiting_calls s' = O.
Proof.
  rewrite !waiting_calls_zero.
  revert s. induction tr as [|a tr IH]; intros s Hmu Hall; simpl.
  - by intros [= <-].
  - destruct (step a s) as [s1|] eqn:Hstep; [|done]. simpl. intros Hrun.
    destruct (step_parked _ _ _ Hmu Hall Hstep) as [Hl ?].
    destruct (IH s1) as [? ?]; try done; [congruence|].
    split; [congruence|done].
Qed.

(** The send of the terminal transition parks whenever the buffer has no
    room, a channel without buffer included. *)
Lemma markComplete_parks job (l : Limiter) :
  (dataqsiz (completions l) ≤ qcount (completions l))%nat →
  jobUuid UUIDLabel job ∈ inFlight l →
  mu_held (markComplete UUIDLabel job l) = true.
Proof.
  intros Hfull Hin. rewrite markComplete_tracked by done.
  apply mu_held_true. simpl. rewrite chansend_full by done. simpl. lia.
Qed.

(** The receive of line 74 does not look at the context. *)
Lemma Create_step_recv (c : Call E) (l : Limiter) :
  call_pc c = AtRecv →
  Create_step c l
  = (λ ch, (at_pc AtSelect c, received ch l)) <$> chanrecv (completions l).
Proof.
  intros Hpc. unfold Create_step. rewrite Hpc.
  by destruct (chanrecv (completions l)).
Qed.

(** A launch from a limiter without tokens did not pass through the
    receive, so it leaves the channel as it was. *)
Lemma Create_launch_channel job (l l1 : Limiter) err :
  Create false job l = Done err l1 →
  tokens (completions l) = O →
  completions l1 = completions l.
Proof.
  intros Hdone Htok.
  destruct (mu_held l) eqn:Hmu; [by rewrite Create_locked in Hdone|].
  destruct (at_capacity l) eqn:Hcap.
  - apply chanrecv_None in Htok. by rewrite Create_waits in Hdone.
  - rewrite Create_no_wait in Hdone by done.
    destruct (add false job l) as [err' l'] eqn:Ha. simplify_eq/=.
    by apply add_cases in Ha as (_ & ? & _).
Qed.

Lemma admissions_count (l l' : Limiter) jobs :
  admissions l jobs l' →
  tokens (completions l) = O →
  size (inFlight l') = (size (inFlight l) + length jobs)%nat
  ∧ MaxInFlight l' = MaxInFlight l
  ∧ completions l' = completions l.
Proof.
  induction 1 as [l|l job l1 jobs l2 Hdone Hcalls _ IH]; intros Htok.
  - split; [simpl; lia|done].
  - pose proof (Create_launch_channel _ _ _ _ Hdone Htok) as Hch.
    destruct (Create_launch_tracks _ _ _ Hdone Hcalls) as (_ & _ & Hsize & HM & _).
    destruct IH as (-> & -> & ->); [congruence|]. simpl.
    split; [lia|done].
Qed.

Lemma run_step a tr (s s1 : Sys) :
  step a s = Some s1 → run (a :: tr) s = run tr s1.
Proof. intros Hstep. simpl. by rewrite Hstep. Qed.

Lemma handle_terminal_tracked ev obj (l : Limiter) :
  terminal_object ev = Some obj →
  jobUuid UUIDLabel obj ∈ inFlight l →
  handle UUIDLabel ev l = signal (untrack (jobUuid UUIDLabel obj) l).
Proof.
  intros Hterminal Hin. destruct ev as [o|old o|o]; simpl in *; [done| |].
  - destruct (isFinished o) eqn:Hf; [|done]. injection Hterminal as ->.
    rewrite OnUpdate_finished by done. by apply markComplete_tracked.
  - injection Hterminal as ->. by apply markComplete_tracked.
Qed.

(** A call in the receive has no step while the channel holds no token,
    and with a token it has one: it takes exactly that token and goes on
    to the select, and nothing else changes. *)
Lemma waiting_call_step (s : Sys) i (c : Call E) :
  sys_calls s !! i = Some c → is_waiting c = true →
  (sys_tokens s = O → step (ActStep i) s = None)
  ∧ ((0 < sys_tokens s)%nat →
       ∃ ch, chanrecv (completions (sys_limiter s)) = Some ch
             ∧ S (tokens ch) = sys_tokens s
             ∧ step (ActStep i) s
               = Some (mkSystem (received ch (sys_limiter s))
                         (<[i := at_pc AtSelect c]> (sys_calls s)))).
Proof.
  intros Hi Hw.
  assert (Hpc : call_pc c = AtRecv).
  { unfold is_waiting in Hw. by destruct (call_pc c). }
  split.
  - intros Htok%chanrecv_None. simpl. rewrite Hi. simpl.
    rewrite Create_step_recv by done. by rewrite Htok.
  - intros Htok. destruct (chanrecv (completions (sys_limiter s))) as [ch|] eqn:Hrecv.
    + exists ch. split; [done|]. split.
      * by apply chanrecv_Some in Hrecv as [-> _].
      * simpl. rewrite Hi. simpl. rewrite Create_step_recv by done.
        by rewrite Hrecv.
    + apply chanrecv_None in Hrecv. lia.
Qed.

(** One token lets one call out of the receive: when two calls wait and
    the channel holds a single token, the one that takes it moves on and
    the other is left in the receive without a step. *)
Lemma one_token_one_caller (s : Sys) i j (ci cj : Call E) :
  sys_tokens s = 1%nat → i ≠ j →
  sys_calls s !! i = Some ci → is_waiting ci = true →
  sys_calls s !! j = Some cj → is_waiting cj = true →
  ∃ s', step (ActStep i) s = Some s'
        ∧ sys_calls s' !! i = Some (at_pc AtSelect ci)
        ∧ sys_calls s' !! j = Some cj
        ∧ sys_tokens s' = O
        ∧ step (ActStep j) s' = None.
Proof.
  intros Hone Hne Hi Hwi Hj Hwj.
  destruct (waiting_call_step s i ci Hi Hwi) as [_ Hgo].
  destruct Hgo as (ch & Hrecv & Htok & Hstep); [lia|].
  eexists. split; [exact Hstep|]. simpl.
  assert (Hj' : <[i:=at_pc AtSelect ci]> (sys_calls s) !! j = Some cj)
    by (by rewrite list_lookup_insert_ne).
  split; [apply list_lookup_insert_eq; eauto using lookup_lt_Some|].
  split; [done|]. split; [lia|].
  apply (waiting_call_step (mkSystem (received ch (sys_limiter s))
           (<[i:=at_pc AtSelect ci]> (sys_calls s))) j cj); [done|done|].
  simpl. lia.
Qed.

(** A call that arrives at capacity stops in the receive; the terminal
    transition of a tracked identifier then sends a token, and the call
    takes it and goes on to the select. *)
Lemma blocked_call_released (l : Limiter) calls ctx job ev obj :
  mu_held l = false → at_capacity l = true →
  terminal_object ev = Some obj →
  jobUuid UUIDLabel obj ∈ inFlight l →
  run [ActCall ctx job; ActStep (length calls);
       ActNotify ev; ActStep (length calls)] (mkSystem l calls)
  = Some (mkSystem
            (received (completions l) (signal (untrack (jobUuid UUIDLabel obj) l)))
            (calls ++ [mkCall ctx job AtSelect])).
Proof.
  intros Hmu Hcap Hterminal Hin.
  apply mu_held_false in Hmu as Hsendq.
  rewrite (run_step _ _ _ (mkSystem l (calls ++ [mkCall ctx job AtEntry])))
    by reflexivity.
  rewrite (run_step _ _ _ (mkSystem l (calls ++ [mkCall ctx job AtRecv]))).
  2: { simpl. rewrite lookup_app_r by lia. rewrite Nat.sub_diag. simpl.
       unfold Create_step. simpl. rewrite Hmu, Hcap. simpl.
       rewrite insert_app_r_alt by lia. by rewrite Nat.sub_diag. }
  rewrite (run_step _ _ _
    (mkSystem (signal (untrack (jobUuid UUIDLabel obj) l))
       (calls ++ [mkCall ctx job AtRecv]))).
  2: { simpl. rewrite Hmu. by rewrite (handle_terminal_tracked ev obj). }
  rewrite (run_step _ _ _
    (mkSystem
       (received (completions l) (signal (untrack (jobUuid UUIDLabel obj) l)))
       (calls ++ [mkCall ctx job AtSelect]))); [done|].
  simpl. rewrite lookup_app_r by lia. rewrite Nat.sub_diag. simpl.
  rewrite Create_step_recv by done. simpl.
  rewrite chanrecv_chansend by done. simpl.
  rewrite insert_app_r_alt by lia. by rewrite Nat.sub_diag.
Qed.

(** C5: a limiter made with a limit N > 0 that has since made N
    admissions (calls that returned nil after a launch) and no completion
    has N identifiers in flight and no token.  A further Create call,
    whatever its job and context, then stops in the receive of the
    completions channel, on its own and as a call among others.  A call in
    the receive stays there, and the channel stays without a token, along
    every run in which no terminal transition of a tracked identifier
    happens; it has no step while there is no token.  Once a terminal
    transition of a tracked identifier has sent its token, the waiting
    call takes it and goes on to the select, with one identifier fewer in
    flight and the channel empty again.  A call in the receive moves
    exactly when a token is there and takes exactly one; with a single
    token and two calls waiting, the one that takes it moves on and the
    other is left without a step.  Along every run the calls that leave
    the receive use up one token each, and terminal transitions of tracked
    identifiers make one token each. *)
Theorem capacity_throttling (sched : D) (N : Z) (l0 l : Limiter) (jobs : list Job)
    (Hpos : 0 < N)
    (Hnew : NewLimiter sched N = Some l0)
    (Hadm : admissions l0 jobs l)
    (Hlen : Z.of_nat (length jobs) = N) :
  lenInFlight l = N
  ∧ tokens (completions l) = O
  ∧ (∀ ctx job, Create ctx job l = Waiting l)
  ∧ (∀ ctx job calls,
       run [ActCall ctx job; ActStep (length calls)] (mkSystem l calls)
       = Some (mkSystem l (calls ++ [mkCall ctx job AtRecv])))
  ∧ (∀ (s : Sys) tr s' i c,
       sys_tokens s = O →
       run tr s = Some s' →
       count_along UUIDLabel (releases UUIDLabel) tr s = O →
       sys_calls s !! i = Some c → is_waiting c = true →
       sys_tokens s' = O
       ∧ ∃ c', sys_calls s' !! i = Some c' ∧ is_waiting c' = true)
  ∧ (∀ (s : Sys) tr s',
       run tr s = Some s' →
       (sys_tokens s' + count_along UUIDLabel proceeds tr s
        = sys_tokens s + count_along UUIDLabel (releases UUIDLabel) tr s)%nat)
  ∧ (∀ ctx job calls ev obj,
       terminal_object ev = Some obj →
       jobUuid UUIDLabel obj ∈ inFlight l →
       ∃ l',
         run [ActCall ctx job; ActStep (length calls);
              ActNotify ev; ActStep (length calls)] (mkSystem l calls)
         = Some (mkSystem l' (calls ++ [mkCall ctx job AtSelect]))
         ∧ inFlight l' = inFlight l ∖ {[jobUuid UUIDLabel obj]}
         ∧ lenInFlight l' = N - 1
         ∧ completions l' = completions l
         ∧ scheduler l' = scheduler l)
  ∧ (∀ (s : Sys) i c,
       sys_calls s !! i = Some c → is_waiting c = true →
       (sys_tokens s = O → step (ActStep i) s = None)
       ∧ ((0 < sys_tokens s)%nat →
            ∃ ch, chanrecv (completions (sys_limiter s)) = Some ch
                  ∧ S (tokens ch) = sys_tokens s
                  ∧ step (ActStep i) s
                    = Some (mkSystem (received ch (sys_limiter s))
                              (<[i := at_pc AtSelect c]> (sys_calls s)))))
  ∧ (∀ (s : Sys) i j ci cj,
       sys_tokens s = 1%nat → i ≠ j →
       sys_calls s !! i = Some ci → is_waiting ci = true →
       sys_calls s !! j = Some cj → is_waiting cj = true →
       ∃ s', step (ActStep i) s = Some s'
             ∧ sys_calls s' !! i = Some (at_pc AtSelect ci)
             ∧ sys_calls s' !! j = Some cj
             ∧ sys_tokens s' = O
             ∧ step (ActStep j) s' = None).
Proof.
  unfold NewLimiter, makeChan in Hnew. case_bool_decide; [done|].
  simpl in Hnew. injection Hnew as <-.
  apply admissions_count in Hadm as (Hsize & HM & Hch); [|done].
  cbn [inFlight MaxInFlight completions] in Hsize, HM, Hch.
  rewrite size_empty in Hsize.
  assert (Hmu : mu_held l = false) by (apply mu_held_false; by rewrite Hch).
  assert (Hcap : at_capacity l = true).
  { apply at_capacity_true. unfold lenInFlight. rewrite Hsize, HM. lia. }
  assert (Hrecv : chanrecv (completions l) = None) by (by rewrite Hch).
  split; [unfold lenInFlight; rewrite Hsize; lia|].
  split; [by rewrite Hch|].
  split; [intros; by apply Create_waits|].
  split; [|split; [|split; [|split; [|split]]]].
  - intros ctx job calls. simpl.
    rewrite lookup_app_r by lia. rewrite Nat.sub_diag. simpl.
    unfold Create_step. simpl. rewrite Hmu, Hcap. simpl.
    rewrite insert_app_r_alt by lia. by rewrite Nat.sub_diag.
  - intros s tr s' i c Htok Hrun Hquiet Hi Hw.
    pose proof (run_tokens UUIDLabel _ _ _ Hrun) as Hcons. simpl in Hcons.
    split; [lia|].
    destruct (run_keeps_waiting UUIDLabel tr s s' i c) as (c' & ? & ? & _);
      try done; [lia|]. eauto.
  - intros s tr s' Hrun. by apply run_tokens.
  - intros ctx job calls ev obj Hterminal Hin.
    eexists. split; [by apply blocked_call_released|]. simpl.
    split; [done|]. split; [|done].
    unfold lenInFlight. simpl. rewrite size_difference by set_solver.
    rewrite size_singleton, Hsize. lia.
  - intros s i c. apply waiting_call_step.
  - intros s i j ci cj. apply one_token_one_caller.
Qed.

(** C6: with MaxInFlight 0 the capacity test fails whatever the size of
    the in-flight set, so the step from the entry goes to the select, never
    to the receive; a call run on its own is never left waiting and, with
    the mutex free, goes straight to the select and add; and among any
    calls and notifications no call is ever in the receive. *)
Theorem Create_unlimited_never_waits (l : Limiter) (Hzero : MaxInFlight l = 0) :
  at_capacity l = false
  ∧ (∀ c c' l', call_pc c = AtEntry → Create_step c l = Some (c', l') →
       call_pc c' = AtSelect ∧ l' = l)
  ∧ (∀ ctx job l', Create ctx job l ≠ Waiting l')
  ∧ (∀ ctx job, mu_held l = false →
       Create ctx job l
       = if ctx then Done None l else Done (add false job l).1 (add false job l).2)
  ∧ (∀ calls tr s',
       waiting_calls (mkSystem l calls) = O →
       run tr (mkSystem l calls) = Some s' →
       waiting_calls s' = O ∧ MaxInFlight (sys_limiter s') = 0).
Proof.
  assert (Hcap : at_capacity l = false) by (apply at_capacity_false; lia).
  split; [done|]. split; [|split; [|split]].
  - intros c c' l' Hpc. unfold Create_step. rewrite Hpc, Hcap.
    destruct (mu_held l); [done|]. by intros [= <- <-].
  - intros ctx job l'. destruct (mu_held l) eqn:Hmu; [by rewrite Create_locked|].
    rewrite Create_no_wait by done. by destruct ctx.
  - intros. by apply Create_no_wait.
  - intros calls tr s' Hnone Hrun. apply waiting_calls_zero in Hnone.
    destruct (run_unlimited tr (mkSystem l calls) s') as [Hw HM];
      [simpl; lia|done|done|].
    split; [by apply waiting_calls_zero|]. by rewrite HM.
Qed.

End Throttling.

(** ** The limiter run with a scheduler *)

Lemma fresh_is_new (max : nat) :
  NewLimiter [] (Z.of_nat max) = Some (sys_limiter (fresh max)).
Proof.
  unfold NewLimiter, makeChan. rewrite bool_decide_eq_false_2 by lia.
  simpl. by rewrite Nat2Z.id.
Qed.

(** C1, on the code: a call whose context is cancelled while it is in the
    receive of line 74 does not return; it stays in the receive until a
    completion arrives, takes that token, and only then returns nil.  With
    a limit of 1 and job a admitted, the call for job b waits; after its
    cancellation it has no step; the deletion of a makes one token, which
    the cancelled call takes before it returns nil without a launch.  In
    general the receive at capacity waits also for a context that was done
    from the start, and a cancelled call in the receive moves exactly when
    a token is there, taking it. *)
Theorem Create_cancelled_in_receive :
  NewLimiter [] 1 = Some (sys_limiter (fresh 1))
  ∧ sys_run uuid_label cancelled_wait (fresh 1)
    = Some (mkSystem
              (mkLimiter (mkDownstream [] [job_a]) 1 {["a"]} (mkChan 1 0 0))
              [mkCall false job_a (Returned None); mkCall true job_b AtRecv])
  ∧ sys_run uuid_label (cancelled_wait ++ [ActStep 1]) (fresh 1) = None
  ∧ sys_run uuid_label
      (cancelled_wait ++ [ActNotify (EvDelete (obj "a" []))]) (fresh 1)
    = Some (mkSystem
              (mkLimiter (mkDownstream [] [job_a]) 1 ∅ (mkChan 1 1 0))
              [mkCall false job_a (Returned None); mkCall true job_b AtRecv])
  ∧ sys_run uuid_label
      (cancelled_wait ++ [ActNotify (EvDelete (obj "a" [])); ActStep 1; ActStep 1])
      (fresh 1)
    = Some (mkSystem
              (mkLimiter (mkDownstream [] [job_a]) 1 ∅ (mkChan 1 0 0))
              [mkCall false job_a (Returned None);
               mkCall true job_b (Returned None)])
  ∧ (∀ job (l : MaxInFlightLimiter (list string)),
       mu_held l = false → at_capacity l = true → tokens (completions l) = O →
       Create true job l = Waiting l)
  ∧ (∀ (c : Call string) (l : MaxInFlightLimiter (list string)),
       call_pc c = AtRecv → call_done c = true →
       (tokens (completions l) = O → Create_step c l = None)
       ∧ (∀ ch, chanrecv (completions l) = Some ch →
            Create_step c l = Some (at_pc AtSelect c, received ch l)
            ∧ tokens (completions l) = S (tokens (completions (received ch l))))).
Proof.
  split; [apply (fresh_is_new 1)|].
  split; [by vm_compute|]. split; [by vm_compute|].
  split; [by vm_compute|]. split; [by vm_compute|]. split.
  - intros job l Hmu Hcap Htok. apply Create_waits; [done..|].
    by apply chanrecv_None.
  - intros c l Hpc _. rewrite Create_step_recv by done. split.
    + intros Htok%chanrecv_None. by rewrite Htok.
    + intros ch Hrecv. rewrite Hrecv. split; [done|].
      by apply chanrecv_Some in Hrecv as [-> _].
Qed.

(** C7, on the code: the send of markComplete has no free slot when the
    buffer is full, and never has one when MaxInFlight is 0 (the channel
    then has no buffer and nobody receives).  With MaxInFlight 0, a job is
    admitted and then deleted: the handler is parked in its send holding
    the mutex, and whatever happens afterwards the limiter stays as it is
    and no further notification is delivered.  With MaxInFlight 1, two
    running jobs found at startup and then deleted: the first token fills
    the buffer and the second send parks in the same way. *)
Theorem markComplete_send_parks :
  (∀ job (l : MaxInFlightLimiter (list string)),
     (dataqsiz (completions l) ≤ qcount (completions l))%nat →
     jobUuid uuid_label job ∈ inFlight l →
     mu_held (markComplete uuid_label job l) = true)
  ∧ NewLimiter [] 0 = Some (sys_limiter (fresh 0))
  ∧ sys_run uuid_label admitted_then_deleted (fresh 0)
    = Some (mkSystem
              (mkLimiter (mkDownstream [] [job_a]) 0 ∅ (mkChan 0 0 1))
              [mkCall false job_a (Returned None)])
  ∧ (∀ tr s',
       sys_run uuid_label (admitted_then_deleted ++ tr) (fresh 0) = Some s' →
       sys_limiter s' = mkLimiter (mkDownstream [] [job_a]) 0 ∅ (mkChan 0 0 1)
       ∧ ∀ a, sys_step uuid_label a s' ≠ None →
              ∀ ev, a ≠ ActNotify ev)
  ∧ NewLimiter [] 1 = Some (sys_limiter (fresh 1))
  ∧ sys_run uuid_label replayed_then_deleted (fresh 1)
    = Some (mkSystem (mkLimiter (mkDownstream [] []) 1 ∅ (mkChan 1 1 1)) [])
  ∧ (∀ tr s',
       sys_run uuid_label (replayed_then_deleted ++ tr) (fresh 1) = Some s' →
       sys_limiter s' = mkLimiter (mkDownstream [] []) 1 ∅ (mkChan 1 1 1)).
Proof.
  split; [intros; by apply markComplete_parks|].
  split; [apply (fresh_is_new 0)|].
  assert (H0 : sys_run uuid_label admitted_then_deleted (fresh 0)
    = Some (mkSystem
              (mkLimiter (mkDownstream [] [job_a]) 0 ∅ (mkChan 0 0 1))
              [mkCall false job_a (Returned None)])) by (by vm_compute).
  assert (H1 : sys_run uuid_label replayed_then_deleted (fresh 1)
    = Some (mkSystem (mkLimiter (mkDownstream [] []) 1 ∅ (mkChan 1 1 1)) []))
    by (by vm_compute).
  split; [done|]. split; [|split; [apply (fresh_is_new 1)|split; [done|]]].
  - intros tr s'. rewrite run_app, H0. simpl. intros Hrun.
    apply run_parked in Hrun as [Hl _]; [|done..].
    simpl in Hl. split; [done|].
    intros a Hstep ev ->. simpl in Hstep. by rewrite Hl in Hstep.
  - intros tr s'. rewrite run_app, H1. simpl. intros Hrun.
    by apply run_parked in Hrun as [Hl _].
Qed.

(** C2 does not hold for Create as a whole: with a limit of 1 and job a
    in flight, a second call for job a waits in the receive instead of
    returning nil. *)
Lemma Create_duplicate_waits_at_capacity :
  ¬ (∀ (l : MaxInFlightLimiter (list string)) ctx job,
       Uuid job ∈ inFlight l →
       ∃ l', Create ctx job l = Done None l'
             ∧ sched_calls (scheduler l') = sched_calls (scheduler l)).
Proof.
  intros Hclaim.
  destruct (Hclaim (limiter_of [] 1 ["a"]) false job_a) as (l' & Hdone & _).
  - by vm_compute.
  - by vm_compute in Hdone.
Qed.

(** ** The theorems at work on small limiters *)

Lemma Create_duplicate_past_gate_witness :
  add false job_a one_in_flight = (None, one_in_flight)
  ∧ Create false job_a one_in_flight = Done None one_in_flight
  ∧ Create false job_a (limiter_of [] 1 ["a"]) = Waiting (limiter_of [] 1 ["a"]).
Proof.
  assert (Hin2 : Uuid job_a ∈ inFlight one_in_flight) by (by vm_compute).
  assert (Hin1 : Uuid job_a ∈ inFlight (limiter_of [] 1 ["a"])) by (by vm_compute).
  destruct (Create_duplicate_past_gate false job_a one_in_flight Hin2)
    as (Hadd & Hbelow & _).
  destruct (Create_duplicate_past_gate false job_a (limiter_of [] 1 ["a"]) Hin1)
    as (_ & _ & Hat & _).
  split; [exact Hadd|]. split.
  - apply Hbelow; reflexivity.
  - apply Hat; reflexivity.
Defined.

Lemma add_failure_not_recorded_witness :
  (add false job_b (limiter_of ["b"] 2 ["a"])).1 = Some "launch failed: b"
  ∧ inFlight (add false job_b (limiter_of ["b"] 2 ["a"])).2 = {["a"]}
  ∧ Create false job_b (limiter_of ["b"] 2 ["a"])
    = Done (Some "launch failed: b")
        (mkLimiter (mkDownstream [] [job_b]) 2 {["a"]} (mkChan 2 0 0)).
Proof.
  assert (Hout : Uuid job_b ∉ inFlight (limiter_of ["b"] 2 ["a"])).
  { intros Hin. by vm_compute in Hin. }
  destruct (add_failure_not_recorded false job_b (limiter_of ["b"] 2 ["a"])
              "launch failed: b" [] Hout eq_refl)
    as (Herr & Hset & _ & _ & _ & _ & Hcall & _).
  split; [exact Herr|]. split.
  - rewrite Hset. by vm_compute.
  - destruct (Hcall eq_refl eq_refl) as [Hbelow _].
    rewrite Hbelow by reflexivity. by vm_compute.
Defined.

Lemma capacity_throttling_witness :
  lenInFlight two_in_flight = 2
  ∧ Create true job_c two_in_flight = Waiting two_in_flight
  ∧ Create false job_c two_in_flight = Waiting two_in_flight
  ∧ ∃ l',
      sys_run uuid_label
        [ActCall false job_c; ActStep 0;
         ActNotify (EvDelete (obj "a" [])); ActStep 0]
        (mkSystem two_in_flight [])
      = Some (mkSystem l' [mkCall false job_c AtSelect])
      ∧ inFlight l' = inFlight two_in_flight ∖ {[jobUuid uuid_label (obj "a" [])]}
      ∧ lenInFlight l' = 2 - 1
      ∧ completions l' = completions two_in_flight
      ∧ scheduler l' = scheduler two_in_flight.
Proof.
  assert (Hadm : admissions (limiter_of [] 2 []) [job_a; job_b] two_in_flight).
  { apply admissions_cons with one_in_flight; [by vm_compute..|].
    apply admissions_cons with two_in_flight; [by vm_compute..|].
    constructor. }
  assert (Hpos : 0 < 2) by lia.
  assert (Hin : jobUuid uuid_label (obj "a" []) ∈ inFlight two_in_flight)
    by (by vm_compute).
  destruct (capacity_throttling uuid_label [] 2 (limiter_of [] 2 [])
              two_in_flight [job_a; job_b] Hpos (fresh_is_new 2) Hadm eq_refl)
    as (Hlen & _ & Hwait & _ & _ & _ & Hrelease & _).
  split; [exact Hlen|]. split; [apply Hwait|]. split; [apply Hwait|].
  exact (Hrelease false job_c [] (EvDelete (obj "a" [])) (obj "a" []) eq_refl Hin).
Defined.

Lemma Create_unlimited_never_waits_witness :
  at_capacity (limiter_of [] 0 ["a"; "b"; "c"]) = false
  ∧ Create false job_a (limiter_of [] 0 ["b"; "c"])
    = Done None
        (mkLimiter (mkDownstream [] [job_a]) 0 {["a"; "b"; "c"]} (mkChan 0 0 0)).
Proof.
  split.
  - apply (Create_unlimited_never_waits uuid_label
             (limiter_of [] 0 ["a"; "b"; "c"]) eq_refl).
  - destruct (Create_unlimited_never_waits uuid_label
                (limiter_of [] 0 ["b"; "c"]) eq_refl) as (_ & _ & _ & Hrun & _).
    rewrite Hrun by reflexivity. by vm_compute.
Defined.

Lemma markComplete_terminal_transition_witness :
  inFlight (markComplete uuid_label (obj "a" []) one_in_flight) = ∅
  ∧ completions (markComplete uuid_label (obj "a" []) one_in_flight) = mkChan 2 1 0
  ∧ OnDelete uuid_label (obj "b" []) one_in_flight = one_in_flight.
Proof.
  assert (Hin : jobUuid uuid_label (obj "a" []) ∈ inFlight one_in_flight)
    by (by vm_compute).
  assert (Hout : jobUuid uuid_label (obj "b" []) ∉ inFlight one_in_flight).
  { intros Hb. by vm_compute in Hb. }
  destruct (markComplete_terminal_transition uuid_label (obj "a" []) one_in_flight)
    as ((Hset & _) & _); [exact Hin|].
  destruct (markComplete_terminal_transition uuid_label (obj "b" []) one_in_flight)
    as (_ & Hun & _).
  split; [rewrite Hset; by vm_compute|]. split; [by vm_compute|].
  apply Hun, Hout.
Defined.

Lemma OnAdd_tracks_unfinished_witness :
  inFlight (OnAdd uuid_label (obj "b" []) one_in_flight) = {["a"; "b"]}
  ∧ OnAdd uuid_label (obj "b" [mkCondition JobFailed ConditionFalse]) one_in_flight
    = one_in_flight
  ∧ size (inFlight (replay uuid_label
            [obj "a" []; obj "x" [mkCondition JobComplete ConditionTrue];
             obj "b" [mkCondition "Suspended" ConditionTrue]]
            (limiter_of [] 1 []))) = 2%nat.
Proof.
  destruct (OnAdd_tracks_unfinished uuid_label (obj "b" []) one_in_flight)
    as (Hlive & _).
  destruct (OnAdd_tracks_unfinished uuid_label
              (obj "b" [mkCondition JobFailed ConditionFalse]) one_in_flight)
    as (_ & Hdone & _ & _ & _ & _ & Hreplay).
  split; [rewrite Hlive by reflexivity; by vm_compute|].
  split; [apply Hdone; reflexivity|].
  destruct (Hreplay [] 1 (limiter_of [] 1 [])
              [obj "a" []; obj "x" [mkCondition JobComplete ConditionTrue];
               obj "b" [mkCondition "Suspended" ConditionTrue]]
              eq_refl) as [Hsize _].
  - vm_compute. repeat constructor; set_solver.
  - exact Hsize.
Defined.

Lemma OnUpdate_reads_new_object_witness :
  OnUpdate uuid_label (obj "a" []) (obj "a" [mkCondition JobComplete ConditionTrue])
    one_in_flight
  = mkLimiter (mkDownstream [] [job_a]) 2 ∅ (mkChan 2 1 0)
  ∧ inFlight (OnUpdate uuid_label (obj "b" []) (obj "b" []) one_in_flight)
    = {["a"; "b"]}.
Proof.
  destruct (OnUpdate_reads_new_object uuid_label (obj "a" []) (obj "a" [])
              (obj "a" [mkCondition JobComplete ConditionTrue]) one_in_flight)
    as (_ & Hfin & _).
  destruct (OnUpdate_reads_new_object uuid_label (obj "b" []) (obj "b" [])
              (obj "b" []) one_in_flight) as (_ & _ & Hlive).
  split.
  - destruct (Hfin eq_refl) as [-> _]. by vm_compute.
  - destruct (Hlive eq_refl) as [Hnew _]. destruct Hnew as [-> _].
    + intros Hb. by vm_compute in Hb.
    + by vm_compute.
Defined.

Lemma isFinished_by_type_only_witness :
  isFinished (obj "a" [mkCondition JobFailed ConditionFalse]) = true
  ∧ isFinished (obj "a" [mkCondition "Suspended" ConditionTrue]) = false.
Proof.
  split.
  - apply (isFinished_by_type_only (obj "a" [mkCondition JobFailed ConditionFalse])).
    exists (mkCondition JobFailed ConditionFalse). split; [left|right; reflexivity].
  - reflexivity.
Defined.

(** * Further properties of the code *)

(** ** isFinished over lists of conditions *)

Lemma isFinished_conds labels conds :
  isFinished (mkBatchJob labels conds) = true ↔ ∃ c, c ∈ conds ∧ terminal_type c.
Proof. unfold isFinished. rewrite finished_fold. simpl. naive_solver. Qed.

(** isFinished of a list of conditions in two parts is the disjunction of
    the parts, so conditions added to a finished job leave it finished;
    and the order of the conditions and the labels of the job play no
    part. *)
Theorem isFinished_app_perm (labels : gmap string string) (conds1 conds2 : list JobCondition) :
  isFinished (mkBatchJob labels (conds1 ++ conds2))
  = isFinished (mkBatchJob labels conds1) || isFinished (mkBatchJob labels conds2)
  ∧ (∀ labels' conds', conds' ≡ₚ conds1 →
       isFinished (mkBatchJob labels' conds') = isFinished (mkBatchJob labels conds1)).
Proof.
  split.
  - apply eq_true_iff_eq. rewrite orb_true_iff, !isFinished_conds. split.
    + intros (c & [?|?]%elem_of_app & ?); [left|right]; by exists c.
    + intros [(c & ? & ?)|(c & ? & ?)]; exists c; (split; [|done]);
        apply elem_of_app; auto.
  - intros labels' conds' Hperm. apply eq_true_iff_eq.
    rewrite !isFinished_conds. by setoid_rewrite Hperm.
Qed.

Section MoreHandlers.

Variable UUIDLabel : string.
Context {D : Type}.

Abbreviation Limiter := (MaxInFlightLimiter D).
Abbreviation uuid_of := (jobUuid UUIDLabel).

Lemma handle_inFlight ev (l : Limiter) :
  inFlight (handle UUIDLabel ev l)
  = match terminal_object ev with
    | Some obj => inFlight l ∖ {[uuid_of obj]}
    | None =>
        if isFinished (event_object ev) then inFlight l
        else {[uuid_of (event_object ev)]} ∪ inFlight l
    end.
Proof.
  assert (Hmark : ∀ obj, inFlight (markComplete UUIDLabel obj l)
                         = inFlight l ∖ {[uuid_of obj]}).
  { intros obj. unfold markComplete. case_decide; simpl; [done|]. set_solver. }
  destruct ev as [obj|old obj|obj]; simpl.
  - apply OnAdd_inFlight.
  - destruct (isFinished obj) eqn:Hf.
    + rewrite OnUpdate_finished by done. apply Hmark.
    + rewrite OnUpdate_unfinished by done. by rewrite OnAdd_inFlight, Hf.
  - apply Hmark.
Qed.

Lemma handle_fields ev (l : Limiter) :
  scheduler (handle UUIDLabel ev l) = scheduler l
  ∧ MaxInFlight (handle UUIDLabel ev l) = MaxInFlight l
  ∧ dataqsiz (completions (handle UUIDLabel ev l)) = dataqsiz (completions l).
Proof.
  destruct ev as [obj|old obj|obj]; simpl.
  - destruct (OnAdd_fields UUIDLabel obj l) as (-> & -> & ->). done.
  - destruct (isFinished obj) eqn:Hf.
    + rewrite OnUpdate_finished by done. apply markComplete_fields.
    + rewrite OnUpdate_unfinished by done.
      destruct (OnAdd_fields UUIDLabel obj l) as (-> & -> & ->). done.
  - apply markComplete_fields.
Qed.

(** No notification launches a job: OnAdd, OnUpdate and OnDelete leave the
    scheduler, the limit and the size of the channel alone, never take a
    token and send at most one, and change the in-flight set in the
    identifier of their own object at most. *)
Theorem handle_never_launches (ev : Event) (l : Limiter) :
  scheduler (handle UUIDLabel ev l) = scheduler l
  ∧ MaxInFlight (handle UUIDLabel ev l) = MaxInFlight l
  ∧ dataqsiz (completions (handle UUIDLabel ev l)) = dataqsiz (completions l)
  ∧ (tokens (completions l) ≤ tokens (completions (handle UUIDLabel ev l))
     ≤ S (tokens (completions l)))%nat
  ∧ (∀ u, u ≠ uuid_of (event_object ev) →
       (u ∈ inFlight (handle UUIDLabel ev l) ↔ u ∈ inFlight l)).
Proof.
  destruct (handle_fields ev l) as (? & ? & ?).
  repeat (split; [done|]). split.
  - rewrite handle_tokens. destruct (terminal_object ev); [case_decide|]; lia.
  - intros u Hne. rewrite handle_inFlight.
    destruct ev as [obj|old obj|obj]; simpl in *;
      destruct (isFinished obj); set_solver.
Qed.

(** An object without the identifier label is tracked under the empty
    string: however many unlabelled unfinished objects a replay delivers,
    they take one slot between them, and the deletion of any unlabelled
    object frees it. *)
Theorem unlabelled_objects_share_one_slot (sched : D) (n : Z) (l0 : Limiter)
    (objs : list BatchJob) (gone : BatchJob)
    (Hnew : NewLimiter sched n = Some l0)
    (Hnolabel : Forall (λ o, Labels o !! UUIDLabel = None) (gone :: objs))
    (Hlive : Exists (λ o, isFinished o = false) objs) :
  inFlight (replay UUIDLabel objs l0) = {[""]}
  ∧ size (inFlight (replay UUIDLabel objs l0)) = 1%nat
  ∧ inFlight (OnDelete UUIDLabel gone (replay UUIDLabel objs l0)) = ∅.
Proof.
  apply Forall_cons in Hnolabel as [Hgone Hobjs].
  assert (Hempty : ∀ o, Labels o !! UUIDLabel = None → uuid_of o = "").
  { intros o Ho. unfold jobUuid. by rewrite Ho. }
  assert (Hset : inFlight (replay UUIDLabel objs l0) = {[""]}).
  { rewrite replay_inFlight.
    unfold NewLimiter, makeChan in Hnew. case_bool_decide; [done|].
    simpl in Hnew. injection Hnew as <-. simpl. rewrite (right_id_L ∅ (∪)).
    apply set_eq. intros u.
    rewrite elem_of_list_to_set, elem_of_singleton. unfold live_uuids.
    rewrite list_elem_of_fmap. split.
    - intros (o & -> & [_ Ho]%list_elem_of_filter).
      apply Hempty. by apply (proj1 (Forall_forall _ _) Hobjs).
    - intros ->. apply Exists_exists in Hlive as (o & Ho & Hf).
      exists o. split; [|by apply list_elem_of_filter].
      symmetry. apply Hempty. by apply (proj1 (Forall_forall _ _) Hobjs). }
  split; [done|]. split; [by rewrite Hset, size_singleton|].
  unfold OnDelete. rewrite markComplete_tracked.
  - simpl. rewrite Hset, (Hempty gone) by done. set_solver.
  - rewrite Hset, (Hempty gone) by done. set_solver.
Qed.

End MoreHandlers.

(** ** More on add and Create *)

Section MoreCreate.

Context {D E : Type} `{!JobHandler D E}.

Abbreviation Limiter := (MaxInFlightLimiter D).

Lemma add_Some_inv ctx job (l l' : Limiter) e :
  add ctx job l = (Some e, l') →
  (Uuid job ∉ inFlight l)
  ∧ ∃ d', handler_Create ctx job (sched_state (scheduler l)) = (Some e, d')
          ∧ l' = mkLimiter (mkDownstream d' (job :: sched_calls (scheduler l)))
                   (MaxInFlight l) (inFlight l) (completions l).
Proof.
  unfold add, scheduler_Create. case_decide as Hin; [done|].
  destruct (handler_Create ctx job (sched_state (scheduler l))) as [[e'|] d'] eqn:Hh;
    intros [= <- <-]; eauto.
Qed.

(** The success path of add: for a job that is not tracked and that the
    scheduler accepts, add returns nil, has asked the scheduler once, and
    has recorded the identifier (the set grows by one) without touching
    the channel; a repeat of the call is then absorbed, and a Create call
    below capacity with a live context does all this at once. *)
Theorem add_success_records (ctx : bool) (job : Job) (l : Limiter) (d' : D)
    (Huntracked : Uuid job ∉ inFlight l)
    (Hok : handler_Create ctx job (sched_state (scheduler l)) = (None, d')) :
  let l' := (add ctx job l).2 in
  (add ctx job l).1 = None
  ∧ inFlight l' = {[Uuid job]} ∪ inFlight l
  ∧ size (inFlight l') = S (size (inFlight l))
  ∧ completions l' = completions l
  ∧ MaxInFlight l' = MaxInFlight l
  ∧ scheduler l' = mkDownstream d' (job :: sched_calls (scheduler l))
  ∧ (∀ ctx2, add ctx2 job l' = (None, l'))
  ∧ (ctx = false → mu_held l = false → at_capacity l = false →
       Create false job l = Done None l').
Proof.
  intros l'. subst l'. rewrite (add_launched _ _ _ d') by done. simpl.
  split; [done|]. split; [done|]. split.
  { rewrite size_union by set_solver. by rewrite size_singleton. }
  repeat (split; [done|]). split.
  - intros ctx2. apply add_tracked. simpl. set_solver.
  - intros -> Hmu Hcap. rewrite Create_no_wait by done.
    by rewrite (add_launched _ _ _ d').
Qed.

(** Create returns nil or the error of the scheduler: an error comes back
    only from a call with a live context, for a job that was not tracked,
    and it is the error the scheduler returned for that very job; the
    in-flight set is then as before and the scheduler was asked once. *)
Theorem Create_error_is_downstream (ctx : bool) (job : Job) (l l' : Limiter) (e : E)
    (Hreturned : Create ctx job l = Done (Some e) l') :
  ctx = false
  ∧ mu_held l = false
  ∧ (Uuid job ∉ inFlight l)
  ∧ inFlight l' = inFlight l
  ∧ MaxInFlight l' = MaxInFlight l
  ∧ ∃ d', handler_Create false job (sched_state (scheduler l)) = (Some e, d')
          ∧ scheduler l' = mkDownstream d' (job :: sched_calls (scheduler l)).
Proof.
  destruct (mu_held l) eqn:Hmu; [by rewrite Create_locked in Hreturned|].
  assert (Hadd : ∀ l0 : Limiter,
    inFlight l0 = inFlight l → scheduler l0 = scheduler l →
    MaxInFlight l0 = MaxInFlight l →
    (if ctx then Done (E:=E) None l0
     else Done (add false job l0).1 (add false job l0).2) = Done (Some e) l' →
    ctx = false ∧ false = false ∧ (Uuid job ∉ inFlight l)
    ∧ inFlight l' = inFlight l ∧ MaxInFlight l' = MaxInFlight l
    ∧ ∃ d', handler_Create false job (sched_state (scheduler l)) = (Some e, d')
            ∧ scheduler l' = mkDownstream d' (job :: sched_calls (scheduler l))).
  { intros l0 Hset Hsched HM Heq. destruct ctx; [done|].
    destruct (add false job l0) as [err l1] eqn:Ha. simpl in Heq.
    injection Heq as -> ->.
    apply add_Some_inv in Ha as (Hout & d' & Hh & ->). simpl.
    rewrite Hset in *. rewrite Hsched in *.
    repeat (split; [done|]). eauto. }
  destruct (at_capacity l) eqn:Hcap.
  - destruct (chanrecv (completions l)) as [ch|] eqn:Hrecv.
    + rewrite (Create_takes_token _ _ _ ch) in Hreturned by done.
      by apply (Hadd (received ch l)).
    + by rewrite Create_waits in Hreturned.
  - rewrite Create_no_wait in Hreturned by done. by apply (Hadd l).
Qed.

(** A call whose context is done when it comes to the select launches
    nothing and records nothing, however it ends, and never returns an
    error; below capacity it returns nil at once and leaves the limiter as
    it is. *)
Theorem Create_done_context_never_launches (job : Job) (l : Limiter) :
  scheduler (outcome_limiter (Create true job l)) = scheduler l
  ∧ inFlight (outcome_limiter (Create true job l)) = inFlight l
  ∧ (∀ e l', Create true job l ≠ Done (Some e) l')
  ∧ (mu_held l = false → at_capacity l = false → Create true job l = Done None l).
Proof.
  destruct (mu_held l) eqn:Hmu; [by rewrite Create_locked|].
  destruct (at_capacity l) eqn:Hcap.
  - destruct (chanrecv (completions l)) as [ch|] eqn:Hrecv.
    + by rewrite (Create_takes_token _ _ _ ch).
    + by rewrite Create_waits.
  - by rewrite Create_no_wait.
Qed.

(** A step of a Create call never removes an identifier, adds at most the
    identifier of its own job, never sends a token and never parks a
    sender; the limit and the size of the channel stay as they are, and so
    do the job and the context of the call. *)
Theorem Create_step_only_grows (c c' : Call E) (l l' : Limiter)
    (Hstep : Create_step c l = Some (c', l')) :
  inFlight l ⊆ inFlight l'
  ∧ inFlight l' ⊆ {[Uuid (call_job c)]} ∪ inFlight l
  ∧ (tokens (completions l') ≤ tokens (completions l))%nat
  ∧ (sendq (completions l') ≤ sendq (completions l))%nat
  ∧ dataqsiz (completions l') = dataqsiz (completions l)
  ∧ MaxInFlight l' = MaxInFlight l
  ∧ call_job c' = call_job c
  ∧ call_done c' = call_done c.
Proof.
  unfold Create_step in Hstep. destruct (call_pc c) eqn:Hpc.
  - destruct (mu_held l); [done|].
    destruct (at_capacity l); simplify_eq/=; repeat split; (done || lia || set_solver).
  - destruct (chanrecv (completions l)) as [ch|] eqn:Hrecv; simplify_eq/=.
    pose proof (chanrecv_sendq _ _ Hrecv).
    apply chanrecv_Some in Hrecv as [Htok Hsz].
    repeat split; (done || lia || set_solver).
  - destruct (call_done c) eqn:Hd; simplify_eq/=;
      repeat split; (done || lia || set_solver).
  - destruct (mu_held l); [done|].
    destruct (add (call_done c) (call_job c) l) as [err l1] eqn:Ha. simplify_eq/=.
    apply add_cases in Ha as (HM & Hch & Hcases). rewrite Hch, HM.
    repeat split; try done; try lia;
      destruct Hcases as [(_ & _ & ->)|(_ & _ & [[_ ->]|[_ ->]])]; set_solver.
  - done.
Qed.

(** NewLimiter has no result for a negative limit (make panics) and
    otherwise returns a limiter with nothing in flight, no token and no
    launch; the first Create call on it never waits, whatever the limit:
    it returns nil for a context that is done and otherwise what the
    scheduler answers for the job. *)
Theorem NewLimiter_fresh (sched : D) (n : Z) :
  (n < 0 → NewLimiter sched n = None)
  ∧ (0 ≤ n → ∃ l : Limiter,
       NewLimiter sched n = Some l
       ∧ inFlight l = ∅ ∧ MaxInFlight l = n
       ∧ completions l = mkChan (Z.to_nat n) 0 0
       ∧ scheduler l = mkDownstream sched []
       ∧ ∀ job,
           Create true job l = Done None l
           ∧ Create false job l = Done (add false job l).1 (add false job l).2
           ∧ (add false job l).1 = (handler_Create false job sched).1
           ∧ sched_calls (scheduler (add false job l).2) = [job]).
Proof.
  unfold NewLimiter, makeChan. split.
  - intros Hneg. by rewrite bool_decide_eq_true_2.
  - intros Hpos. rewrite bool_decide_eq_false_2 by lia. simpl.
    eexists. split; [done|]. simpl. repeat (split; [done|]).
    set (l := mkLimiter _ _ _ _).
    assert (Hmu : mu_held l = false) by done.
    assert (Hcap : at_capacity l = false).
    { apply at_capacity_false. unfold lenInFlight. subst l.
      cbn [inFlight MaxInFlight]. rewrite size_empty. lia. }
    intros job. rewrite !Create_no_wait by done.
    split; [done|]. split; [done|].
    unfold add, scheduler_Create. rewrite decide_False by (subst l; simpl; set_solver).
    subst l. simpl.
    by destruct (handler_Create false job sched) as [[e|] d'].
Qed.

End MoreCreate.

(** ** More on the limiter among its callers *)

Lemma filter_length_insert {A} (P : A → Prop) `{!∀ x, Decision (P x)}
    (l : list A) (i : nat) (x y : A) :
  l !! i = Some y →
  (length (filter P (<[i:=x]> l)) + (if decide (P y) then 1 else 0)
   = length (filter P l) + (if decide (P x) then 1 else 0))%nat.
Proof.
  revert i. induction l as [|z l IH]; intros [|i] Hi; simplify_eq/=.
  - rewrite !filter_cons. repeat case_decide; simpl; lia.
  - rewrite !filter_cons. specialize (IH i Hi).
    destruct (decide (P z)); simpl; lia.
Qed.

Lemma chansend_ok c : chan_ok c → sendq c = O → chan_ok (chansend c).
Proof.
  unfold chan_ok, chansend. intros (? & ? & ?) ?.
  case_bool_decide; simpl; repeat split; lia.
Qed.

Lemma chanrecv_ok c c' : chan_ok c → chanrecv c = Some c' → chan_ok c'.
Proof.
  unfold chan_ok, chanrecv. intros (? & ? & ?).
  destruct (qcount c) eqn:Hq, (sendq c) eqn:Hs; intros; simplify_eq/=;
    repeat split; lia.
Qed.

Section MoreInterleaving.

Variable UUIDLabel : string.
Context {D E : Type} `{!JobHandler D E}.

Abbreviation Limiter := (MaxInFlightLimiter D).
Abbreviation Sys := (System D E).
Abbreviation step := (sys_step UUIDLabel).
Abbreviation run := (sys_run UUIDLabel).
Abbreviation sys_tokens := (λ s : Sys, tokens (completions (sys_limiter s))).
Abbreviation launched := (λ s : Sys, sched_calls (scheduler (sys_limiter s))).

Lemma handle_completions ev (l : Limiter) :
  completions (handle UUIDLabel ev l) = completions l
  ∨ completions (handle UUIDLabel ev l) = chansend (completions l).
Proof.
  assert (Hmark : ∀ obj,
    completions (markComplete UUIDLabel obj l) = completions l
    ∨ completions (markComplete UUIDLabel obj l) = chansend (completions l)).
  { intros obj. unfold markComplete. case_decide; simpl; auto. }
  destruct ev as [obj|old obj|obj]; simpl.
  - left. apply OnAdd_fields.
  - destruct (isFinished obj) eqn:Hf.
    + rewrite OnUpdate_finished by done. apply Hmark.
    + rewrite OnUpdate_unfinished by done. left. apply OnAdd_fields.
  - apply Hmark.
Qed.

Lemma step_channel a (s s' : Sys) :
  chan_ok (completions (sys_limiter s)) → step a s = Some s' →
  chan_ok (completions (sys_limiter s'))
  ∧ dataqsiz (completions (sys_limiter s')) = dataqsiz (completions (sys_limiter s)).
Proof.
  intros Hok. destruct a as [ctx job|i|i|ev]; simpl.
  - by intros [= <-].
  - destruct (sys_calls s !! i); intros; by simplify_eq/=.
  - destruct (sys_calls s !! i) as [c|]; [|done]. simpl.
    destruct (Create_step c (sys_limiter s)) as [[c' l']|] eqn:Hstep; [|done].
    intros [= <-]. simpl. destruct (is_waiting c) eqn:Hw.
    + apply Create_step_waiting in Hstep as (_ & ch & Hrecv & ->); [|done]. simpl.
      split; [by eapply chanrecv_ok|]. by apply chanrecv_Some in Hrecv as [_ ?].
    + apply Create_step_not_waiting in Hstep as (-> & _); done.
  - destruct (mu_held (sys_limiter s)) eqn:Hmu; [done|]. intros [= <-]. simpl.
    apply mu_held_false in Hmu.
    destruct (handle_completions ev (sys_limiter s)) as [->| ->]; [done|].
    split; [by apply chansend_ok|apply chansend_dataqsiz].
Qed.

(** The channel keeps its shape along every run: never more buffered
    tokens than its size, at most one handler parked in a send, and that
    only while the buffer is full; its size and the limit never change.  A
    limiter as NewLimiter makes it starts in that shape, with a channel of
    the size of the limit. *)
Theorem run_channel_invariant (s s' : Sys) (tr : list (Action))
    (Hok : chan_ok (completions (sys_limiter s)))
    (Hrun : run tr s = Some s') :
  chan_ok (completions (sys_limiter s'))
  ∧ dataqsiz (completions (sys_limiter s')) = dataqsiz (completions (sys_limiter s))
  ∧ MaxInFlight (sys_limiter s') = MaxInFlight (sys_limiter s)
  ∧ (sys_tokens s' ≤ S (dataqsiz (completions (sys_limiter s))))%nat
  ∧ (∀ (sched : D) n l0, NewLimiter sched n = Some l0 →
       chan_ok (completions l0) ∧ dataqsiz (completions l0) = Z.to_nat n).
Proof.
  assert (Hinv : chan_ok (completions (sys_limiter s'))
    ∧ dataqsiz (completions (sys_limiter s')) = dataqsiz (completions (sys_limiter s))
    ∧ MaxInFlight (sys_limiter s') = MaxInFlight (sys_limiter s)).
  { revert s Hok Hrun. induction tr as [|a tr IH]; intros s Hok; simpl.
    - by intros [= <-].
    - destruct (step a s) as [s1|] eqn:Hstep; [|done]. simpl. intros Hrun.
      destruct (step_channel _ _ _ Hok Hstep) as [Hok1 Hsz].
      pose proof (step_MaxInFlight _ _ _ _ Hstep) as HM.
      destruct (IH s1 Hok1 Hrun) as (? & ? & ?).
      split; [done|]. split; congruence. }
  destruct Hinv as (Hok' & Hsz & HM). repeat (split; [done|]). split.
  - destruct Hok' as (? & ? & ?). unfold tokens. lia.
  - intros sched n l0 Hnew. unfold NewLimiter, makeChan in Hnew.
    case_bool_decide; [done|]. simpl in Hnew. injection Hnew as <-. simpl.
    split; [|done]. unfold chan_ok. simpl. lia.
Qed.

(** What a step of a call does to the log of launches. *)
Lemma Create_step_launch (c c' : Call E) (l l' : Limiter) :
  Create_step c l = Some (c', l') →
  has_returned c = false
  ∧ (sched_calls (scheduler l') = sched_calls (scheduler l)
     ∨ (has_returned c' = true
        ∧ sched_calls (scheduler l') = call_job c :: sched_calls (scheduler l))).
Proof.
  unfold Create_step, has_returned. destruct (call_pc c) eqn:Hpc; intros Hstep.
  - destruct (mu_held l); [done|]. destruct (at_capacity l); simplify_eq/=; auto.
  - destruct (chanrecv (completions l)); simplify_eq/=. auto.
  - destruct (call_done c); simplify_eq/=; auto.
  - destruct (mu_held l); [done|].
    destruct (add (call_done c) (call_job c) l) as [err l1] eqn:Ha. simplify_eq/=.
    split; [done|].
    apply add_cases in Ha as (_ & _ & [(_ & _ & ->)|(_ & -> & _)]); auto.
  - done.
Qed.

Lemma step_launches a (s s' : Sys) :
  step a s = Some s' →
  ∃ new, launched s' = (new ++ launched s)%list
         ∧ (length new + returned_calls s ≤ returned_calls s')%nat.
Proof.
  unfold returned_calls. destruct a as [ctx job|i|i|ev]; simpl.
  - intros [= <-]. exists []. simpl. split; [done|].
    rewrite filter_app, length_app. lia.
  - destruct (sys_calls s !! i) as [c|] eqn:Hi; intros; simplify_eq/=.
    exists []. split; [done|]. simpl.
    pose proof (filter_length_insert (λ c, has_returned c = true)
                  (sys_calls s) i (cancel c) c Hi) as Hlen.
    unfold has_returned in *. simpl in *.
    destruct (decide _); lia.
  - destruct (sys_calls s !! i) as [c|] eqn:Hi; [|done]. simpl.
    destruct (Create_step c (sys_limiter s)) as [[c' l']|] eqn:Hstep; [|done].
    intros [= <-]. simpl.
    pose proof (filter_length_insert (λ c, has_returned c = true)
                  (sys_calls s) i c' c Hi) as Hlen.
    apply Create_step_launch in Hstep as (Hc & [Hsame|[Hret Hpush]]).
    + exists []. split; [done|]. simpl.
      rewrite decide_False in Hlen by congruence. destruct (decide _); lia.
    + exists [call_job c]. split; [done|]. simpl.
      rewrite decide_False in Hlen by congruence.
      rewrite decide_True in Hlen by done. lia.
  - destruct (mu_held (sys_limiter s)); [done|]. intros [= <-]. simpl.
    exists []. split; [|simpl; lia].
    by destruct (handle_fields UUIDLabel ev (sys_limiter s)) as (-> & _).
Qed.

(** Along every run the log of launches only grows at its head, and by no
    more jobs than calls have returned in the run: a call launches once at
    most, and arrivals, cancellations and notifications launch nothing. *)
Theorem run_launches_bounded (s s' : Sys) (tr : list Action)
    (Hrun : run tr s = Some s') :
  ∃ new, launched s' = (new ++ launched s)%list
         ∧ (length new + returned_calls s ≤ returned_calls s')%nat.
Proof.
  revert s Hrun. induction tr as [|a tr IH]; intros s; simpl.
  - intros [= <-]. exists []. split; [done|]. simpl. lia.
  - destruct (step a s) as [s1|] eqn:Hstep; [|done]. simpl. intros Hrun.
    apply step_launches in Hstep as (new1 & Hl1 & Hn1).
    apply IH in Hrun as (new2 & Hl2 & Hn2).
    exists (new2 ++ new1)%list. split.
    + by rewrite Hl2, Hl1, (assoc_L (++)).
    + rewrite length_app. lia.
Qed.

End MoreInterleaving.

(** ** Tokens that nobody waits for *)

Section StaleTokens.

Variable UUIDLabel : string.
Context {D E : Type} `{!JobHandler D E}.

Abbreviation Limiter := (MaxInFlightLimiter D).
Abbreviation Sys := (System D E).
Abbreviation run := (sys_run UUIDLabel).

#[local] Arguments Create_step : simpl never.
#[local] Arguments add : simpl never.

Lemma Create_step_entry (c : Call E) (l : Limiter) :
  call_pc c = AtEntry → mu_held l = false →
  Create_step c l
  = Some (at_pc (if at_capacity l then AtRecv else AtSelect) c, l).
Proof.
  intros Hpc Hmu. unfold Create_step. rewrite Hpc, Hmu. by destruct (at_capacity l).
Qed.

Lemma Create_step_select (c : Call E) (l : Limiter) :
  call_pc c = AtSelect →
  Create_step c l
  = Some (at_pc (if call_done c then Returned None else AtAdd) c, l).
Proof. intros Hpc. unfold Create_step. rewrite Hpc. by destruct (call_done c). Qed.

Lemma Create_step_add (c : Call E) (l : Limiter) :
  call_pc c = AtAdd → mu_held l = false →
  Create_step c l
  = Some (at_pc (Returned (add (call_done c) (call_job c) l).1) c,
          (add (call_done c) (call_job c) l).2).
Proof.
  intros Hpc Hmu. unfold Create_step. rewrite Hpc, Hmu.
  by destruct (add (call_done c) (call_job c) l).
Qed.

Lemma mu_held_completions (l l' : Limiter) :
  completions l' = completions l → mu_held l' = mu_held l.
Proof. unfold mu_held. by intros ->. Qed.

(** An admission followed by the terminal transition of the same job
    (its deletion, or an update that shows it finished) brings the
    in-flight set back to what it was, leaves the launch in the log, and
    leaves one more token in the channel. *)
Theorem admission_then_completion (ctx : bool) (job : Job) (old obj : BatchJob)
    (l : Limiter) (d' : D)
    (Hsame : jobUuid UUIDLabel obj = Uuid job)
    (Huntracked : Uuid job ∉ inFlight l)
    (Hok : handler_Create ctx job (sched_state (scheduler l)) = (None, d')) :
  let l1 := (add ctx job l).2 in
  inFlight (OnDelete UUIDLabel obj l1) = inFlight l
  ∧ tokens (completions (OnDelete UUIDLabel obj l1)) = S (tokens (completions l))
  ∧ sched_calls (scheduler (OnDelete UUIDLabel obj l1))
    = job :: sched_calls (scheduler l)
  ∧ (isFinished obj = true →
       OnUpdate UUIDLabel old obj l1 = OnDelete UUIDLabel obj l1).
Proof.
  intros l1. subst l1. rewrite (add_launched _ _ _ d') by done. simpl.
  set (l1 := mkLimiter _ _ _ _).
  assert (Hin : jobUuid UUIDLabel obj ∈ inFlight l1)
    by (rewrite Hsame; subst l1; simpl; set_solver).
  unfold OnDelete. rewrite markComplete_tracked by done. simpl.
  split; [rewrite Hsame; set_solver|]. split; [apply chansend_tokens|].
  split; [done|].
  intros Hf. rewrite OnUpdate_finished by done. by rewrite markComplete_tracked.
Qed.

(** A call that finds the limiter at capacity and a token in the channel
    takes the token and goes on to add without looking at the size again:
    with a job that is not tracked and that the scheduler accepts, the
    in-flight set ends above the limit. *)
Theorem Create_with_token_exceeds_limit (job : Job) (l : Limiter) (d' : D)
    (Hmu : mu_held l = false)
    (Hcap : at_capacity l = true)
    (Htoken : (0 < qcount (completions l))%nat)
    (Huntracked : Uuid job ∉ inFlight l)
    (Hok : handler_Create false job (sched_state (scheduler l)) = (None, d')) :
  ∃ l', Create false job l = Done None l'
        ∧ lenInFlight l' = lenInFlight l + 1
        ∧ MaxInFlight l' = MaxInFlight l
        ∧ MaxInFlight l' < lenInFlight l'
        ∧ S (tokens (completions l')) = tokens (completions l).
Proof.
  apply mu_held_false in Hmu as Hsendq.
  destruct (chanrecv (completions l)) as [ch|] eqn:Hrecv.
  2: { apply chanrecv_None in Hrecv. unfold tokens in Hrecv. lia. }
  eexists. rewrite (Create_takes_token _ _ _ ch) by done.
  rewrite (add_launched false job (received ch l) d') by done. simpl.
  split; [done|]. apply at_capacity_true in Hcap.
  assert (Hlen : lenInFlight
    (mkLimiter (mkDownstream d' (job :: sched_calls (scheduler l)))
       (MaxInFlight l) ({[Uuid job]} ∪ inFlight l) ch) = lenInFlight l + 1).
  { unfold lenInFlight. simpl. rewrite size_union by set_solver.
    rewrite size_singleton. lia. }
  rewrite Hlen. split; [done|]. split; [done|]. split; [simpl; lia|]. simpl.
  by apply chanrecv_Some in Hrecv as [-> _].
Qed.

(** The shape of an idle limiter after [k] rounds. *)
Lemma rounds_shape (N : nat) (l l' : Limiter) rs :
  rounds UUIDLabel l rs l' →
  ∀ k, inFlight l = ∅ → MaxInFlight l = Z.of_nat N →
       (k ≤ S N)%nat →
       completions l = (if decide (k ≤ N)%nat then mkChan N k 0 else mkChan N N 1) →
       inFlight l' = ∅ ∧ MaxInFlight l' = Z.of_nat N
       ∧ (k + length rs ≤ S N)%nat
       ∧ completions l'
         = (if decide (k + length rs ≤ N)%nat
            then mkChan N (k + length rs) 0 else mkChan N N 1).
Proof.
  induction 1 as [l|l job obj l1 rest l2 Hsame Hdone Hcalls _ IH];
    intros k Hset HM Hk Hch.
  - simpl. rewrite Nat.add_0_r. done.
  - destruct (Create_launch_tracks _ _ _ Hdone Hcalls) as (_ & _ & _ & HM1 & Hmu).
    assert (Hkn : (k ≤ N)%nat).
    { destruct (decide (k ≤ N)%nat); [done|].
      apply mu_held_false in Hmu. by rewrite Hch in Hmu. }
    rewrite decide_True in Hch by done.
    assert (Hcap : at_capacity l = false).
    { apply at_capacity_false. unfold lenInFlight. rewrite Hset, size_empty. lia. }
    rewrite Create_no_wait in Hdone by done.
    destruct (add false job l) as [err l1'] eqn:Ha. simpl in Hdone.
    injection Hdone as -> ->.
    apply add_cases in Ha as (_ & Hch1 & Hcases).
    assert (Hset1 : inFlight l1 = {[Uuid job]}).
    { destruct Hcases as [(Hin & _)|(_ & _ & [[[? ?] _]|[_ ->]])].
      - rewrite Hset in Hin. set_solver.
      - done.
      - rewrite Hset. set_solver. }
    assert (Hin : jobUuid UUIDLabel obj ∈ inFlight l1)
      by (rewrite Hsame, Hset1; set_solver).
    specialize (IH (S k)). simpl. rewrite <- Nat.add_succ_comm.
    unfold OnDelete in IH. rewrite markComplete_tracked in IH by done.
    simpl in IH. apply IH.
    + rewrite Hsame, Hset1. set_solver.
    + by rewrite HM1.
    + lia.
    + rewrite Hch1, Hch. unfold chansend. simpl.
      case_bool_decide.
      * by rewrite decide_True by lia.
      * rewrite decide_False by lia. f_equal. lia.
Qed.

(** On a limiter that never comes to capacity nobody takes the tokens of
    the completions.  From NewLimiter with limit N, each round of one
    admission and the deletion of that job leaves the set empty and one
    more token in the buffer; the buffer is full after N rounds, and the
    deletion of round N+1 parks its handler in the send with the mutex
    held, after which every Create call stops at the mutex and no further
    round can be made. *)
Theorem idle_rounds_fill_channel (sched : D) (N : nat) (l0 l : Limiter)
    (rs : list (Job * BatchJob))
    (Hnew : NewLimiter sched (Z.of_nat N) = Some l0)
    (Hrounds : rounds UUIDLabel l0 rs l) :
  inFlight l = ∅
  ∧ tokens (completions l) = length rs
  ∧ (length rs ≤ S N)%nat
  ∧ ((length rs ≤ N)%nat → completions l = mkChan N (length rs) 0)
  ∧ (length rs = S N →
       completions l = mkChan N N 1
       ∧ mu_held l = true
       ∧ ∀ ctx job, Create ctx job l = Locked l).
Proof.
  unfold NewLimiter, makeChan in Hnew. case_bool_decide; [done|].
  simpl in Hnew. injection Hnew as <-.
  destruct (rounds_shape N _ _ _ Hrounds O) as (Hset & HM & Hlen & Hch);
    try done; [lia|simpl; by rewrite Nat2Z.id|].
  simpl in Hlen, Hch. split; [done|]. split.
  { rewrite Hch. unfold tokens. case_decide; simpl; lia. }
  split; [done|]. split.
  - intros Hle. by rewrite Hch, decide_True.
  - intros Heq. rewrite decide_False in Hch by lia.
    assert (Hmu : mu_held l = true) by (apply mu_held_true; rewrite Hch; simpl; lia).
    split; [done|]. split; [done|]. intros. by apply Create_locked.
Qed.

(** The capacity test and add are not one step: two calls that both read
    the size before either has added are both admitted.  From any limiter
    below capacity with no call in progress, for two jobs with different
    untracked identifiers that the scheduler accepts, this run admits
    both, so that a limiter one below its limit ends one above it. *)
Theorem concurrent_calls_exceed_limit (job1 job2 : Job) (l : Limiter) (d1 d2 : D)
    (Hmu : mu_held l = false)
    (Hcap : at_capacity l = false)
    (Hout1 : Uuid job1 ∉ inFlight l)
    (Hout2 : Uuid job2 ∉ inFlight l)
    (Hdiff : Uuid job1 ≠ Uuid job2)
    (Hok1 : handler_Create false job1 (sched_state (scheduler l)) = (None, d1))
    (Hok2 : handler_Create false job2 d1 = (None, d2)) :
  ∃ l',
    run [ActCall false job1; ActCall false job2;
         ActStep 0; ActStep 1;
         ActStep 0; ActStep 0; ActStep 1; ActStep 1] (mkSystem l [])
    = Some (mkSystem l' [mkCall false job1 (Returned None);
                         mkCall false job2 (Returned None)])
    ∧ inFlight l' = {[Uuid job2]} ∪ ({[Uuid job1]} ∪ inFlight l)
    ∧ lenInFlight l' = lenInFlight l + 2
    ∧ MaxInFlight l' = MaxInFlight l
    ∧ sched_calls (scheduler l') = job2 :: job1 :: sched_calls (scheduler l).
Proof.
  set (l1 := mkLimiter (mkDownstream d1 (job1 :: sched_calls (scheduler l)))
               (MaxInFlight l) ({[Uuid job1]} ∪ inFlight l) (completions l)).
  assert (Hadd1 : add false job1 l = (None, l1)) by (by apply add_launched).
  assert (Hmu1 : mu_held l1 = false) by (by rewrite (mu_held_completions l l1)).
  assert (Hadd2 : add false job2 l1
    = (None, mkLimiter (mkDownstream d2 (job2 :: job1 :: sched_calls (scheduler l)))
               (MaxInFlight l) ({[Uuid job2]} ∪ ({[Uuid job1]} ∪ inFlight l))
               (completions l))).
  { rewrite (add_launched false job2 l1 d2); [done| |done].
    subst l1. simpl. set_solver. }
  subst l1. eexists. split.
  - simpl.
    repeat first
      [ rewrite Create_step_entry by done; rewrite Hcap; simpl
      | rewrite Create_step_select by done; simpl
      | rewrite Create_step_add by done; simpl;
        first [rewrite Hadd1|rewrite Hadd2]; simpl ].
    done.
  - simpl. split; [done|]. split; [|done].
    unfold lenInFlight. simpl.
    rewrite !size_union, !size_singleton by set_solver. lia.
Qed.

(** A terminal transition wakes a call that waits: when a tracked job is
    deleted, or updated to finished, while a call is in the receive and no
    handler is parked, the handler's token is there for that call, which
    takes it and moves on to the select; the channel is then as before the
    transition and the mutex is free, also when the send had to park. *)
Theorem terminal_transition_wakes_waiter (ev : Event) (obj : BatchJob)
    (l : Limiter) (calls : list (Call E)) (i : nat) (c : Call E)
    (Hterminal : terminal_object ev = Some obj)
    (Hmu : mu_held l = false)
    (Htracked : jobUuid UUIDLabel obj ∈ inFlight l)
    (Hcall : calls !! i = Some c)
    (Hwaiting : is_waiting c = true) :
  ∃ l',
    run [ActNotify ev; ActStep i] (mkSystem l calls)
    = Some (mkSystem l' (<[i := at_pc AtSelect c]> calls))
    ∧ completions l' = completions l
    ∧ mu_held l' = false
    ∧ inFlight l' = inFlight l ∖ {[jobUuid UUIDLabel obj]}
    ∧ scheduler l' = scheduler l.
Proof.
  assert (Hhandle : handle UUIDLabel ev l
                    = signal (untrack (jobUuid UUIDLabel obj) l)).
  { destruct ev as [o|old o|o]; simpl in *; [done| |].
    - destruct (isFinished o) eqn:Hf; [|done]. injection Hterminal as ->.
      rewrite OnUpdate_finished by done. by apply markComplete_tracked.
    - injection Hterminal as ->. by apply markComplete_tracked. }
  apply mu_held_false in Hmu as Hsendq.
  assert (Hpc : call_pc c = AtRecv).
  { unfold is_waiting in Hwaiting. by destruct (call_pc c). }
  eexists. split.
  - simpl. rewrite Hmu. simpl. rewrite Hcall. simpl.
    rewrite Create_step_recv by done. rewrite Hhandle. simpl.
    rewrite chanrecv_chansend by done. simpl. done.
  - simpl. repeat split; done.
Qed.

End StaleTokens.

(** ** RegisterInformer *)

(** RegisterInformer returns nil exactly when both selectors are built,
    the handler is registered and the cache has synced.  The handler is
    registered before the factory is started, and the factory is started
    exactly when the three calls before it succeed.  An error that wraps a
    cause is the error of one of those three calls and means that nothing
    was registered or started; the one error that comes after the start is
    the sync failure, which wraps nothing. *)
Theorem RegisterInformer_outcomes {C : Type} (k : InformerCalls C) :
  ((RegisterInformer k).1 = None
   ↔ tagRequirement k = None ∧ uuidRequirement k = None
     ∧ addEventHandler k = None ∧ waitForCacheSync k = true)
  ∧ (FactoryStarted ∈ (RegisterInformer k).2
     ↔ tagRequirement k = None ∧ uuidRequirement k = None
       ∧ addEventHandler k = None)
  ∧ ((RegisterInformer k).2 = []
     ∨ (RegisterInformer k).2 = [HandlerRegistered; FactoryStarted; CacheSyncAwaited])
  ∧ (∀ err cause,
       (RegisterInformer k).1 = Some err → Unwrap err = Some cause →
       (RegisterInformer k).2 = []
       ∧ (tagRequirement k = Some cause
          ∨ tagRequirement k = None
            ∧ (uuidRequirement k = Some cause
               ∨ uuidRequirement k = None ∧ addEventHandler k = Some cause)))
  ∧ (∀ err,
       (RegisterInformer k).1 = Some err → Unwrap err = None →
       err = Plain "failed to sync informer cache"
       ∧ waitForCacheSync k = false
       ∧ (RegisterInformer k).2 = [HandlerRegistered; FactoryStarted; CacheSyncAwaited]).
Proof.
  unfold RegisterInformer.
  destruct (tagRequirement k) as [e1|], (uuidRequirement k) as [e2|],
    (addEventHandler k) as [e3|], (waitForCacheSync k); simpl;
    (split; [|split; [|split; [|split]]]);
    first [ by auto
          | split; [done|]; intros (? & ? & ?); done
          | split; [done|]; intros (? & ? & ? & ?); done
          | split; [|done]; by intros ?%elem_of_nil
          | split; [done|]; intros _; by repeat constructor
          | split; [|intros (? & ? & ?); done]; by intros ?%elem_of_nil
          | intros; simplify_eq/=; naive_solver ].
Qed.

(** ** The further properties at work on small limiters *)

Lemma unlabelled_objects_share_one_slot_witness :
  size (inFlight (replay uuid_label
          [mkBatchJob ∅ []; mkBatchJob {["team" := "x"]} []]
          (limiter_of [] 2 []))) = 1%nat
  ∧ inFlight (OnDelete uuid_label
        (mkBatchJob ∅ [mkCondition JobComplete ConditionTrue])
        (replay uuid_label
           [mkBatchJob ∅ []; mkBatchJob {["team" := "x"]} []]
           (limiter_of [] 2 []))) = ∅.
Proof.
  destruct (unlabelled_objects_share_one_slot uuid_label
              ([] : list string) 2 (limiter_of [] 2 [])
              [mkBatchJob ∅ []; mkBatchJob {["team" := "x"]} []]
              (mkBatchJob ∅ [mkCondition JobComplete ConditionTrue]))
    as (_ & Hsize & Hgone).
  - reflexivity.
  - repeat constructor.
  - apply Exists_cons_hd. reflexivity.
  - split; [exact Hsize|exact Hgone].
Defined.

Lemma add_success_records_witness :
  (add false job_b one_in_flight).1 = None
  ∧ size (inFlight (add false job_b one_in_flight).2) = 2%nat
  ∧ Create false job_b one_in_flight = Done None (add false job_b one_in_flight).2.
Proof.
  assert (Hout : Uuid job_b ∉ inFlight one_in_flight).
  { intros Hin. by vm_compute in Hin. }
  destruct (add_success_records false job_b one_in_flight [] Hout eq_refl)
    as (Hnil & _ & Hsize & _ & _ & _ & _ & Hcall).
  split; [exact Hnil|]. split; [exact Hsize|].
  apply Hcall; reflexivity.
Defined.

Lemma Create_error_is_downstream_witness :
  mu_held (limiter_of ["b"] 2 ["a"]) = false
  ∧ inFlight (mkLimiter (mkDownstream ([] : list string) [job_b]) 2 {["a"]}
                (mkChan 2 0 0))
    = inFlight (limiter_of ["b"] 2 ["a"]).
Proof.
  assert (Hret : Create false job_b (limiter_of ["b"] 2 ["a"])
    = Done (Some "launch failed: b")
        (mkLimiter (mkDownstream [] [job_b]) 2 {["a"]} (mkChan 2 0 0)))
    by (by vm_compute).
  destruct (Create_error_is_downstream false job_b _ _ _ Hret)
    as (_ & Hmu & _ & Hset & _).
  split; [exact Hmu|exact Hset].
Defined.

Lemma Create_step_only_grows_witness :
  inFlight one_in_flight ⊆ inFlight two_in_flight
  ∧ MaxInFlight two_in_flight = MaxInFlight one_in_flight.
Proof.
  assert (Hstep : Create_step (mkCall false job_b AtAdd) one_in_flight
    = Some (mkCall false job_b (Returned (None : option string)), two_in_flight))
    by (by vm_compute).
  destruct (Create_step_only_grows _ _ _ _ Hstep) as (Hsub & _ & _ & _ & _ & HM & _).
  split; [exact Hsub|exact HM].
Defined.

Lemma run_channel_invariant_witness :
  chan_ok (mkChan 1 1 1)
  ∧ (tokens (mkChan 1 1 1) ≤ 2)%nat.
Proof.
  assert (Hok : chan_ok (completions (sys_limiter (fresh 1)))).
  { unfold chan_ok. simpl. lia. }
  assert (Hrun : sys_run uuid_label replayed_then_deleted (fresh 1)
    = Some (mkSystem (mkLimiter (mkDownstream [] []) 1 ∅ (mkChan 1 1 1)) []))
    by (by vm_compute).
  destruct (run_channel_invariant uuid_label _ _ _ Hok Hrun)
    as (Hok' & _ & _ & Htok & _).
  split; [exact Hok'|exact Htok].
Defined.

Lemma run_launches_bounded_witness :
  ∃ new : list Job,
    [job_a] = (new ++ [])%list
    ∧ (length new + 0 ≤ 1)%nat.
Proof.
  assert (Hrun : sys_run uuid_label cancelled_wait (fresh 1)
    = Some (mkSystem
              (mkLimiter (mkDownstream [] [job_a]) 1 {["a"]} (mkChan 1 0 0))
              [mkCall false job_a (Returned None); mkCall true job_b AtRecv]))
    by (by vm_compute).
  exact (run_launches_bounded uuid_label _ _ _ Hrun).
Defined.

Lemma admission_then_completion_witness :
  inFlight (OnDelete uuid_label (obj "b" []) (add false job_b one_in_flight).2)
  = inFlight one_in_flight
  ∧ tokens (completions
      (OnDelete uuid_label (obj "b" []) (add false job_b one_in_flight).2)) = 1%nat.
Proof.
  assert (Hout : Uuid job_b ∉ inFlight one_in_flight).
  { intros Hin. by vm_compute in Hin. }
  destruct (admission_then_completion uuid_label false job_b (obj "b" [])
              (obj "b" []) one_in_flight [] eq_refl Hout eq_refl)
    as (Hset & Htok & _).
  split; [exact Hset|exact Htok].
Defined.

Lemma Create_with_token_exceeds_limit_witness :
  sys_run uuid_label
    [ActCall false job_a; ActStep 0; ActStep 0; ActStep 0;
     ActNotify (EvDelete (obj "a" []));
     ActCall false job_b; ActStep 1; ActStep 1; ActStep 1] (fresh 1)
  = Some (mkSystem stale_token
            [mkCall false job_a (Returned None); mkCall false job_b (Returned None)])
  ∧ ∃ l', Create false job_c stale_token = Done None l'
          ∧ lenInFlight l' = lenInFlight stale_token + 1
          ∧ MaxInFlight l' = MaxInFlight stale_token
          ∧ MaxInFlight l' < lenInFlight l'
          ∧ S (tokens (completions l')) = tokens (completions stale_token).
Proof.
  split; [by vm_compute|].
  assert (Hout : Uuid job_c ∉ inFlight stale_token).
  { intros Hin. by vm_compute in Hin. }
  assert (Htok : (0 < qcount (completions stale_token))%nat) by (simpl; lia).
  exact (Create_with_token_exceeds_limit job_c stale_token []
           eq_refl eq_refl Htok Hout eq_refl).
Defined.

Lemma idle_rounds_fill_channel_witness :
  completions (OnDelete uuid_label (obj "b" []) stale_token) = mkChan 1 1 1
  ∧ mu_held (OnDelete uuid_label (obj "b" []) stale_token) = true.
Proof.
  assert (Hrounds : rounds uuid_label (limiter_of [] 1 [])
            [(job_a, obj "a" []); (job_b, obj "b" [])]
            (OnDelete uuid_label (obj "b" []) stale_token)).
  { apply rounds_cons with
      (mkLimiter (mkDownstream [] [job_a]) 1 {["a"]} (mkChan 1 0 0));
      [by vm_compute..|].
    apply rounds_cons with stale_token; [by vm_compute..|].
    apply rounds_nil. }
  destruct (idle_rounds_fill_channel uuid_label [] 1 _ _ _ (fresh_is_new 1) Hrounds)
    as (_ & _ & _ & _ & Hfull).
  destruct (Hfull eq_refl) as (Hch & Hmu & _).
  split; [exact Hch|exact Hmu].
Defined.

Lemma concurrent_calls_exceed_limit_witness :
  ∃ l',
    sys_run uuid_label
      [ActCall false job_a; ActCall false job_b;
       ActStep 0; ActStep 1;
       ActStep 0; ActStep 0; ActStep 1; ActStep 1]
      (mkSystem (limiter_of [] 1 []) [])
    = Some (mkSystem l' [mkCall false job_a (Returned None);
                         mkCall false job_b (Returned None)])
    ∧ inFlight l' = {[Uuid job_b]} ∪ ({[Uuid job_a]} ∪ inFlight (limiter_of [] 1 []))
    ∧ lenInFlight l' = lenInFlight (limiter_of [] 1 []) + 2
    ∧ MaxInFlight l' = MaxInFlight (limiter_of [] 1 [])
    ∧ sched_calls (scheduler l')
      = job_b :: job_a :: sched_calls (scheduler (limiter_of [] 1 [])).
Proof.
  assert (Hout1 : Uuid job_a ∉ inFlight (limiter_of [] 1 [])).
  { intros Hin. by vm_compute in Hin. }
  assert (Hout2 : Uuid job_b ∉ inFlight (limiter_of [] 1 [])).
  { intros Hin. by vm_compute in Hin. }
  assert (Hdiff : Uuid job_a ≠ Uuid job_b) by (intros Heq; discriminate Heq).
  exact (concurrent_calls_exceed_limit uuid_label job_a job_b (limiter_of [] 1 [])
           [] [] eq_refl eq_refl Hout1 Hout2 Hdiff eq_refl eq_refl).
Defined.

Lemma terminal_transition_wakes_waiter_witness :
  ∃ l',
    sys_run uuid_label [ActNotify (EvDelete (obj "a" [])); ActStep 0]
      (mkSystem (limiter_of [] 1 ["a"]) [mkCall true job_b AtRecv])
    = Some (mkSystem l' (<[0%nat := at_pc AtSelect (mkCall true job_b AtRecv)]>
                           [mkCall true job_b AtRecv]))
    ∧ completions l' = completions (limiter_of [] 1 ["a"])
    ∧ mu_held l' = false
    ∧ inFlight l' = inFlight (limiter_of [] 1 ["a"])
                    ∖ {[jobUuid uuid_label (obj "a" [])]}
    ∧ scheduler l' = scheduler (limiter_of [] 1 ["a"]).
Proof.
  assert (Hin : jobUuid uuid_label (obj "a" []) ∈ inFlight (limiter_of [] 1 ["a"]))
    by (by vm_compute).
  exact (terminal_transition_wakes_waiter uuid_label (EvDelete (obj "a" []))
           (obj "a" []) (limiter_of [] 1 ["a"]) [mkCall true job_b AtRecv] 0
           (mkCall true job_b AtRecv) eq_refl eq_refl Hin eq_refl eq_refl).
Defined.
